(** * chibios.py: the ChibiOS/RT thread registry commands for gdb

    A shallow embedding of [src/chibios.py] and the properties of its
    registry walk ([chibios threads]), of the per-thread extraction
    ([ChibiosThread.__init__]) and of the schema check
    ([ChibiosThread.sanity_check]).

    The debugger is modelled by what the script asks of it: the member
    names of the [Thread] struct type, the address of [rlist], the [Thread]
    structs that can be read from target memory, and raw memory reads.
    What the script prints and which raw memory ranges it reads are kept
    in a trace, and a Python exception is a result of its own. *)

From Stdlib.Strings Require Import Byte.
From stdpp Require Import base decidable option list numbers strings gmap.

Local Open Scope string_scope.
Local Open Scope list_scope.
Local Open Scope Z_scope.

(** ** Exceptions, trace and the command monad *)

(** The exceptions the script can meet. *)
Inductive Exn :=
| GdbError (msg : string)   (* gdb.GdbError(msg), raised by the script itself *)
| gdb_error (key : string)  (* gdb.error: there is no member named [key] *)
| MemoryError               (* gdb.MemoryError: target memory cannot be read *)
| IndexError.               (* list index out of range *)

Inductive Result (A : Type) :=
| Ok (a : A)
| Raise (e : Exn).
Arguments Ok {A} a.
Arguments Raise {A} e.

(** One formatted row of the table: the values [THREAD_INFO_FORMAT] reads
    off a thread, in column order. The column widths and the hexadecimal
    rendering are presentation and are not modelled. *)
Record Row := {
  col_Address : Z;
  col_StkLimit : Z;
  col_Stack : Z;
  col_Free : Z;
  col_Total : Z;
  col_Name : string;
  col_State : string
}.

Inductive Event :=
| Print (line : string)            (* print of a plain line *)
| PrintRow (r : Row)               (* print of a formatted thread row *)
| ReadMemory (addr len : Z).       (* inf.read_memory(addr, len) *)

Definition M (A : Type) : Type := list Event * Result A.

Global Instance M_ret : MRet M := λ A a, ([], Ok a).
Global Instance M_bind : MBind M := λ A B f m,
  match m with
  | (tr, Ok a) => let '(tr', r) := f a in (tr ++ tr', r)
  | (tr, Raise e) => (tr, Raise e)
  end.

Definition raise {A} (e : Exn) : M A := ([], Raise e).
Definition emit (ev : Event) : M unit := ([ev], Ok ()).

(** [try: body except gdb.MemoryError: handler] *)
Definition try_except_MemoryError {A} (body handler : M A) : M A :=
  match body with
  | (tr, Raise MemoryError) => let '(tr', r) := handler in (tr ++ tr', r)
  | other => other
  end.

(** The lines printed and the raw reads made, in order. *)
Definition printed (tr : list Event) : list Event :=
  omap (λ ev, match ev with ReadMemory _ _ => None | _ => Some ev end) tr.
Definition reads (tr : list Event) : list (Z * Z) :=
  omap (λ ev, match ev with ReadMemory a n => Some (a, n) | _ => None end) tr.
Definition rows (tr : list Event) : list Row :=
  omap (λ ev, match ev with PrintRow r => Some r | _ => None end) tr.

(** ** The target as the script sees it *)

(** A [Thread] struct in target memory. Which members the kernel build
    really has is a matter of the struct type ([Thread_keys] below); the
    value of a member the type lacks is never looked at. *)
Record Thread := {
  p_newer : Z;
  p_older : Z;
  p_ctx_r13 : Z;            (* thread['p_ctx']['r13'] *)
  p_stklimit : Z;
  p_name : option string;   (* thread['p_name'].string(); None: unreadable *)
  p_state : Z;
  p_flags : Z;
  p_prio : Z;
  p_refs : Z;
  p_time : Z
}.

Record Target := {
  Thread_keys : list string;   (* gdb.lookup_type('Thread').keys() *)
  rlist : Z;                   (* gdb.parse_and_eval('&rlist') *)
  threads : gmap Z Thread;     (* the Thread structs readable, by address *)
  read_memory : Z → Z → option (list byte)
                               (* inf.read_memory; None: gdb.MemoryError *)
}.

(** [key in thread.type.keys()] *)
Definition has_key (tg : Target) (key : string) : bool :=
  bool_decide (key ∈ Thread_keys tg).

(** [thread[key]] for the struct at address [thread]: gdb refuses a member
    the type does not have, and reading the value needs the memory. *)
Definition getitem {A} (tg : Target) (thread : Z) (key : string)
    (member : Thread → A) : M A :=
  if has_key tg key then
    match threads tg !! thread with
    | Some t => mret (member t)
    | None => raise MemoryError
    end
  else raise (gdb_error key).

(** gdb values are lazy: [thread[key]] on a struct that has not been read
    yet only looks the member up, and the struct is read from target memory
    when the value is first used (compared, subtracted, converted).
    [member] is the lookup alone and [fetch] the read alone; [getitem]
    above is the two together, for a member that is used where it is
    looked up. *)
Definition member (tg : Target) (key : string) : M unit :=
  if has_key tg key then mret () else raise (gdb_error key).

Definition fetch {A} (tg : Target) (thread : Z) (field : Thread → A) : M A :=
  match threads tg !! thread with
  | Some t => mret (field t)
  | None => raise MemoryError
  end.

(** [.string()] on a [char *] member. *)
Definition string_ (v : option string) : M string :=
  match v with
  | Some s => mret s
  | None => raise MemoryError
  end.

Definition inf_read_memory (tg : Target) (addr len : Z) : M (list byte) :=
  _ ← emit (ReadMemory addr len);
  match read_memory tg addr len with
  | Some buf => mret buf
  | None => raise MemoryError
  end.

(** ** ChibiosThread *)

Definition THREAD_STATE : list string :=
  ["READY"; "CURRENT"; "SUSPENDED"; "WTSEM"; "WTMTX"; "WTCOND"; "SLEEPING";
   "WTEXIT"; "WTOREVT"; "WTANDEVT"; "SNDMSGQ"; "SNDMSG"; "WTMSG"; "WTQUEUE";
   "FINAL"].

Record ChibiosThread := {
  _stklimit : Z;
  _r13 : Z;
  _address : Z;
  _stack_size : Z;
  _stack_unused : Z;
  _name : string;
  _state : Z;
  _flags : Z;
  _prio : Z;
  _refs : Z;
  _time : Z
}.

(** The fill byte: the character 'U'. *)
Definition fill_byte : byte := x55.

(** [for i, each in enumerate(stack): if each != 'U': ...; break], with
    [None] when the loop runs off the end (the [else] of the [for]). *)
Fixpoint first_non_fill (i : nat) (stack : list byte) : option nat :=
  match stack with
  | [] => None
  | each :: rest =>
      if negb (Byte.eqb each fill_byte) then Some i
      else first_non_fill (S i) rest
  end.

Definition scan_stack (stack : list byte) : Z :=
  match first_non_fill 0 stack with
  | Some i => Z.of_nat i
  | None => 0
  end.

(** [self._r13] is looked up first and read when the stack size is
    computed; when there is no stack to scan it is not read in the
    constructor at all, and its value is taken at the end, when the struct
    has been read for the name and the state. [self._stklimit] is compared
    with 0 right after its lookup, and the name and the state are
    converted where they are looked up; the members after them are looked
    up when the struct has been read, so they are there to be read. *)
Definition ChibiosThread_init (tg : Target) (thread : Z) : M ChibiosThread :=
  _ ← member tg "p_ctx";
  stklimit ← (if has_key tg "p_stklimit"
              then getitem tg thread "p_stklimit" p_stklimit
              else mret 0);
  stack ← (if bool_decide (stklimit > 0) then
             r13 ← fetch tg thread p_ctx_r13;
             let stack_size := r13 - stklimit in
             stack_unused ← try_except_MemoryError
               (stack ← inf_read_memory tg stklimit stack_size;
                mret (scan_stack stack))
               (mret 0);
             mret (stack_size, stack_unused)
           else mret (0, 0));
  let address := thread in
  name ← getitem tg thread "p_name" p_name ≫= string_;
  name ← (if bool_decide (0 < String.length name)%nat
          then getitem tg thread "p_name" p_name ≫= string_
          else mret "<no name>");
  state ← getitem tg thread "p_state" p_state;
  flags ← getitem tg thread "p_flags" p_flags;
  prio ← getitem tg thread "p_prio" p_prio;
  refs ← getitem tg thread "p_refs" p_refs;
  time ← (if has_key tg "p_time"
          then getitem tg thread "p_time" p_time
          else mret 0);
  r13 ← fetch tg thread p_ctx_r13;
  mret {| _stklimit := stklimit; _r13 := r13; _address := address;
          _stack_size := stack.1; _stack_unused := stack.2;
          _name := name; _state := state; _flags := flags; _prio := prio;
          _refs := refs; _time := time |}.

(** Python's [l[i]]: a negative index counts from the end. *)
Definition py_getitem {A} (l : list A) (i : Z) : Result A :=
  let n := Z.of_nat (length l) in
  let j := if bool_decide (i < 0) then i + n else i in
  if bool_decide (0 ≤ j < n) then
    match l !! Z.to_nat j with
    | Some x => Ok x
    | None => Raise IndexError
    end
  else Raise IndexError.

(** The properties of the class. *)
Definition name (ch : ChibiosThread) : string := _name ch.
Definition stack_size (ch : ChibiosThread) : Z := _stack_size ch.
Definition stack_limit (ch : ChibiosThread) : Z := _stklimit ch.
Definition stack_start (ch : ChibiosThread) : Z := _r13 ch.
Definition stack_unused (ch : ChibiosThread) : Z := _stack_unused ch.
Definition address (ch : ChibiosThread) : Z := _address ch.
Definition state (ch : ChibiosThread) : Z := _state ch.
Definition state_str (ch : ChibiosThread) : Result string :=
  py_getitem THREAD_STATE (state ch).
Definition flags (ch : ChibiosThread) : Z := _flags ch.
Definition prio (ch : ChibiosThread) : Z := _prio ch.
Definition time (ch : ChibiosThread) : Z := _time ch.

(** ** The schema check *)

Definition registry_not_enabled : string :=
  "ChibiOS/RT thread registry not enabled, cannot access thread information!".
Definition no_p_stklimit : string :=
  "No p_stklimit in Thread struct; enable CH_DBG_ENABLE_STACK_CHECK".
Definition no_p_time : string :=
  "No p_time in Thread struct; enable CH_DBG_THREADS_PROFILING".

Definition sanity_check (tg : Target) : M unit :=
  _ ← (if negb (has_key tg "p_newer") || negb (has_key tg "p_older")
       then raise (GdbError registry_not_enabled)
       else mret ());
  _ ← (if negb (has_key tg "p_stklimit")
       then emit (Print no_p_stklimit)
       else mret ());
  if negb (has_key tg "p_time") then emit (Print no_p_time) else mret ().

(** ** The table *)

Inductive Align := ALeft | ARight.

(** The header half of [THREAD_INFO]: alignment and width of the header
    formatter ("{:10}" is left-aligned, "{:>6}" right-aligned) and the title. *)
Definition THREAD_INFO : list (Align * nat * string) :=
  [ (ALeft, 10%nat, "Address"); (ALeft, 10%nat, "StkLimit");
    (ALeft, 10%nat, "Stack"); (ARight, 6%nat, "Free");
    (ARight, 6%nat, "Total"); (ALeft, 16%nat, "Name");
    (ALeft, 10%nat, "State") ].

Fixpoint spaces (n : nat) : string :=
  match n with
  | O => ""
  | S n => String.append " " (spaces n)
  end.

Definition format_title (f : Align * nat * string) : string :=
  let '(a, w, s) := f in
  let padding := spaces (w - String.length s) in
  match a with
  | ALeft => String.append s padding
  | ARight => String.append padding s
  end.

Definition THREAD_INFO_HEADER_FORMAT : string :=
  String.concat " " (format_title <$> THREAD_INFO).

Definition lift {A} (r : Result A) : M A := ([], r).

(** [THREAD_INFO_FORMAT.format(thread=ch_thread)]: the properties are read
    in column order; [state_str] is the one that can raise. *)
Definition THREAD_INFO_FORMAT_format (thread : ChibiosThread) : M Row :=
  state_name ← lift (state_str thread);
  mret {| col_Address := address thread;
          col_StkLimit := stack_limit thread;
          col_Stack := stack_start thread;
          col_Free := stack_unused thread;
          col_Total := stack_size thread;
          col_Name := name thread;
          col_State := state_name |}.

(** ** chibios threads *)

Definition rlist_pointer_invalid : string :=
  "Rlist pointer invalid--corrupt list?".

(** One turn of the [while] loop; the result is the next value of [newer].
    The new [newer] is read from the thread just printed when it is
    dereferenced for [older], and [older] is read from the next node when
    it is compared with [current]. *)
Definition walk_body (tg : Target) (newer : Z) : M Z :=
  ch_thread ← ChibiosThread_init tg newer;
  row ← THREAD_INFO_FORMAT_format ch_thread;
  _ ← emit (PrintRow row);
  let current := newer in
  newer ← getitem tg newer "p_newer" p_newer;
  older ← getitem tg newer "p_older" p_older;
  if bool_decide (older ≠ current)
  then raise (GdbError rlist_pointer_invalid)
  else mret newer.

(** Run [m], then the rest [k] of a computation that may not terminate
    ([None]: the fuel ran out). *)
Definition and_then {A B} (m : M A) (k : A → option (M B)) : option (M B) :=
  match m with
  | (tr, Ok a) => (λ '(tr', r), (tr ++ tr', r)) <$> k a
  | (tr, Raise e) => Some (tr, Raise e)
  end.

(** [while (newer != rlist_as_thread): ...] *)
Fixpoint walk (fuel : nat) (tg : Target) (rlist_as_thread newer : Z)
    : option (M unit) :=
  match fuel with
  | O => None
  | S fuel =>
      if bool_decide (newer ≠ rlist_as_thread)
      then and_then (walk_body tg newer) (walk fuel tg rlist_as_thread)
      else Some (mret ())
  end.

(** [newer] and [older] are looked up in the anchor before the header is
    printed; the anchor is read from memory when the loop first compares
    [newer] with [rlist_as_thread], after the header. The first [older] is
    never used, so it is never read. *)
Definition invoke (fuel : nat) (tg : Target) : option (M unit) :=
  and_then
    (_ ← sanity_check tg;
     let rlist_as_thread := rlist tg in
     _ ← member tg "p_newer";
     _ ← member tg "p_older";
     _ ← emit (Print THREAD_INFO_HEADER_FORMAT);
     newer ← fetch tg rlist_as_thread p_newer;
     mret newer)
    (walk fuel tg (rlist tg)).

(** ** chibios thread *)

Definition no_threads_found : string :=
  "No threads found--run info threads first".

(** [selected_thread] is [None] when [gdb.selected_thread()] is [None], and
    otherwise [thread.ptid[2]], which the script takes for the address of
    the [Thread]: it casts the number to a [Thread] pointer and
    dereferences it. *)
Definition ChibiosThreadCommand_invoke (tg : Target)
    (selected_thread : option Z) : M unit :=
  match selected_thread with
  | Some tid =>
      let newer := tid in
      _ ← emit (Print THREAD_INFO_HEADER_FORMAT);
      let thread_struct := newer in
      ch_thread ← ChibiosThread_init tg thread_struct;
      row ← THREAD_INFO_FORMAT_format ch_thread;
      emit (PrintRow row)
  | None => emit (Print no_threads_found)
  end.

(** * The vocabulary of the properties *)

(** The members [ChibiosThread] reads without asking whether the type has
    them. *)
Definition mandatory_keys : list string :=
  ["p_ctx"; "p_name"; "p_state"; "p_flags"; "p_prio"; "p_refs"].

(** The struct at [a] can be read as [t], named [nm], and the type has the
    mandatory members. *)
Definition readable (tg : Target) (a : Z) (t : Thread) (nm : string) : Prop :=
  Forall (λ k, has_key tg k) mandatory_keys ∧
  threads tg !! a = Some t ∧ p_name t = Some nm.

Definition newer_of (tg : Target) (a : Z) : option Z :=
  p_newer <$> threads tg !! a.
Definition older_of (tg : Target) (a : Z) : option Z :=
  p_older <$> threads tg !! a.

(** The older/newer invariant of one link: [b] is the newer of [a], and the
    older of [b] leads back to [a]. *)
Definition consistent (tg : Target) (a b : Z) : Prop :=
  newer_of tg a = Some b ∧ older_of tg b = Some a.

(** Every two neighbours of the list are consistently linked. *)
Fixpoint adjacent (tg : Target) (l : list Z) : Prop :=
  match l with
  | [] => True
  | a :: l' =>
      match l' with [] => True | b :: _ => consistent tg a b end ∧
      adjacent tg l'
  end.

(** The circular registry whose nodes other than the anchor are [ns], in
    newer order: anchor, [ns], anchor again. *)
Definition registry (tg : Target) (ns : list Z) : Prop :=
  adjacent tg (rlist tg :: ns ++ [rlist tg]) ∧ Forall (λ n, n ≠ rlist tg) ns.

(** The struct type has the link members and the mandatory ones. *)
Definition well_typed (tg : Target) : Prop :=
  has_key tg "p_newer" ∧ has_key tg "p_older" ∧
  Forall (λ k, has_key tg k) mandatory_keys.

(** The struct at [a] is a thread: its name can be read and its state is
    one of the 15 states. *)
Definition live_thread (tg : Target) (a : Z) : Prop :=
  match threads tg !! a with
  | Some t => is_Some (p_name t) ∧ 0 ≤ p_state t < 15
  | None => False
  end.

(** The row the command prints for the thread at [a]. *)
Definition thread_row (tg : Target) (a : Z) : Result Row :=
  (ch ← ChibiosThread_init tg a; THREAD_INFO_FORMAT_format ch).2.

(** The rows in front of what the rest of the walk prints. *)
Definition after (tr : list Event) (rest : option (M unit)) : option (M unit) :=
  (λ '(tr', r), (tr ++ tr', r)) <$> rest.

(** The warnings of the schema check. *)
Definition advisories (tg : Target) : list Event :=
  (if has_key tg "p_stklimit" then [] else [Print no_p_stklimit]) ++
  (if has_key tg "p_time" then [] else [Print no_p_time]).

(** A computation that prints nothing. *)
Definition quiet {A} (m : M A) : Prop := printed m.1 = [].

(** Starting at cursor [c] the walk met the threads [vs], none of them the
    anchor and each the newer of the one before; [e] is where the newer
    link of the last one leads, and [c] itself when [vs] is empty. *)
Fixpoint trail (tg : Target) (c : Z) (vs : list Z) (e : Z) : Prop :=
  match vs with
  | [] => c = e
  | v :: vs' =>
      v = c ∧ v ≠ rlist tg ∧
      ∃ n, newer_of tg v = Some n ∧ trail tg n vs' e
  end.

(** A computation that reads no raw memory. *)
Definition silent {A} (m : M A) : Prop := reads m.1 = [].

(** Threads that are closed under the newer link, consistently linked, and
    none of which is the anchor: a loop the walk cannot leave. *)
Definition anchor_free_loop (tg : Target) (loop : list Z) : Prop :=
  ∀ c, c ∈ loop →
    c ≠ rlist tg ∧ live_thread tg c ∧ ∃ n, n ∈ loop ∧ consistent tg c n.

(** * Sample targets *)

Module Sample.

Definition full_keys : list string :=
  ["p_next"; "p_prev"; "p_prio"; "p_ctx"; "p_newer"; "p_older"; "p_name";
   "p_stklimit"; "p_state"; "p_flags"; "p_refs"; "p_time"].

(** A kernel built without the stack check and without profiling. *)
Definition bare_keys : list string :=
  ["p_next"; "p_prev"; "p_prio"; "p_ctx"; "p_newer"; "p_older"; "p_name";
   "p_state"; "p_flags"; "p_refs"].

Definition node (newer older r13 stklimit : Z) (nm : string) (st : Z)
    : Thread :=
  {| p_newer := newer; p_older := older; p_ctx_r13 := r13;
     p_stklimit := stklimit; p_name := Some nm; p_state := st;
     p_flags := 0; p_prio := 64; p_refs := 1; p_time := 0 |}.

Definition main_stack : list byte :=
  [x55; x55; x55; x55; x55; x55; x55; x00].

(** Raw memory: the stack of main at 0x1000, seven fill bytes below one
    used byte, and the stack of the worker at 0x3000, never written to.
    Nothing else can be read. *)
Definition stack_memory (addr len : Z) : option (list byte) :=
  if bool_decide (addr = 4096 ∧ len = 8) then Some main_stack
  else if bool_decide (addr = 12288 ∧ len = 8) then Some (replicate 8 x55)
  else None.

(** The anchor at 0x100 and three threads: main at 0x200, the idle thread
    at 0x300, which has no name and whose stack cannot be read, and a
    sleeping worker at 0x400. *)
Definition anchor : Thread := node 512 1024 0 0 "" 0.
Definition main : Thread := node 768 256 4104 4096 "main" 1.
Definition idle : Thread := node 1024 512 8200 8192 "" 0.
Definition worker : Thread := node 256 768 12296 12288 "worker" 6.

Definition ring3 : Target :=
  {| Thread_keys := full_keys;
     rlist := 256;
     threads := {[ 256 := anchor; 512 := main; 768 := idle;
                   1024 := worker ]};
     read_memory := stack_memory |}.

Definition with_keys (keys : list string) (tg : Target) : Target :=
  {| Thread_keys := keys; rlist := rlist tg; threads := threads tg;
     read_memory := read_memory tg |}.

(** The struct at [a] overwritten by [t]. *)
Definition poke (a : Z) (t : Thread) (tg : Target) : Target :=
  {| Thread_keys := Thread_keys tg; rlist := rlist tg;
     threads := <[a := t]> (threads tg); read_memory := read_memory tg |}.

Definition bare3 : Target := with_keys bare_keys ring3.

(** The older pointer of the first, second and third thread reached is
    wrong. *)
Definition main_off : Thread := node 768 768 4104 4096 "main" 1.
Definition idle_off : Thread := node 1024 256 8200 8192 "" 0.
Definition worker_off : Thread := node 256 512 12296 12288 "worker" 6.
Definition broken_at_1 : Target := poke 512 main_off ring3.
Definition broken_at_2 : Target := poke 768 idle_off ring3.
Definition broken_at_3 : Target := poke 1024 worker_off ring3.

(** main with a state ordinal of 15, and of -1. *)
Definition main_15 : Thread := node 768 256 4104 4096 "main" 15.
Definition main_minus_1 : Thread := node 768 256 4104 4096 "main" (-1).
Definition state_15 : Target := poke 512 main_15 ring3.
Definition state_minus_1 : Target := poke 512 main_minus_1 ring3.

(** main with its saved stack pointer below its stack limit. *)
Definition main_below : Thread := node 768 256 4000 4096 "main" 1.
Definition below : Target := poke 512 main_below ring3.

(** A kernel built without the registry. *)
Definition no_registry_keys : list string :=
  ["p_next"; "p_prev"; "p_prio"; "p_ctx"; "p_name"; "p_stklimit"; "p_state";
   "p_flags"; "p_refs"; "p_time"].
Definition no_registry : Target := with_keys no_registry_keys ring3.

(** A [Thread] type that lost [p_prio]. *)
Definition no_prio_keys : list string :=
  ["p_next"; "p_prev"; "p_ctx"; "p_newer"; "p_older"; "p_name";
   "p_stklimit"; "p_state"; "p_flags"; "p_refs"; "p_time"].
Definition no_prio : Target := with_keys no_prio_keys ring3.

(** The newer pointer of the idle thread leads to 0x800, where nothing can
    be read. *)
Definition idle_dangling : Thread := node 2048 512 8200 8192 "" 0.
Definition dangling : Target := poke 768 idle_dangling ring3.

(** The worker with a state ordinal of 200. *)
Definition worker_200 : Thread := node 256 768 12296 12288 "worker" 200.
Definition state_200 : Target := poke 1024 worker_200 ring3.

(** main and the idle thread linked to each other, both ways. *)
Definition main_loop : Thread := node 768 768 4104 4096 "main" 1.
Definition idle_loop : Thread := node 512 512 8200 8192 "" 0.
Definition looped : Target := poke 768 idle_loop (poke 512 main_loop ring3).

(** The symbol [rlist] at 0x1234, where nothing can be read. *)
Definition adrift : Target :=
  {| Thread_keys := full_keys; rlist := 4660; threads := threads ring3;
     read_memory := stack_memory |}.

(** main whose name cannot be read. *)
Definition main_nameless : Thread :=
  {| p_newer := 768; p_older := 256; p_ctx_r13 := 4104; p_stklimit := 4096;
     p_name := None; p_state := 1; p_flags := 0; p_prio := 64; p_refs := 1;
     p_time := 0 |}.
Definition nameless : Target := poke 512 main_nameless ring3.

(** main with a scheduled time of 777. *)
Definition main_timed : Thread :=
  {| p_newer := 768; p_older := 256; p_ctx_r13 := 4104; p_stklimit := 4096;
     p_name := Some "main"; p_state := 1; p_flags := 0; p_prio := 64;
     p_refs := 1; p_time := 777 |}.
Definition timed : Target := poke 512 main_timed ring3.

End Sample.

(** * Properties *)

(** ** Extraction of one thread *)

Lemma getitem_ok {A} tg a key (member : Thread → A) t :
  has_key tg key → threads tg !! a = Some t →
  getitem tg a key member = ([], Ok (member t)).
Proof.
  intros Hk Ht. unfold getitem. rewrite Ht.
  destruct (has_key tg key); [reflexivity | destruct Hk].
Qed.

(** What the constructor does on a readable struct, in one piece. *)
Lemma ChibiosThread_init_readable tg a t nm :
  readable tg a t nm →
  ChibiosThread_init tg a =
    let stklimit := if has_key tg "p_stklimit" then p_stklimit t else 0 in
    let r13 := p_ctx_r13 t in
    let scanned :=
      if bool_decide (stklimit > 0)
      then Some (read_memory tg stklimit (r13 - stklimit)) else None in
    (match scanned with
     | Some _ => [ReadMemory stklimit (r13 - stklimit)]
     | None => []
     end,
     Ok {| _stklimit := stklimit; _r13 := r13; _address := a;
           _stack_size :=
             match scanned with Some _ => r13 - stklimit | None => 0 end;
           _stack_unused :=
             match scanned with
             | Some (Some stack) => scan_stack stack
             | _ => 0
             end;
           _name := if bool_decide (0 < String.length nm)%nat
                    then nm else "<no name>";
           _state := p_state t; _flags := p_flags t; _prio := p_prio t;
           _refs := p_refs t;
           _time := if has_key tg "p_time" then p_time t else 0 |}).
Proof.
  intros (Hkeys & Ht & Hnm).
  repeat (apply Forall_cons in Hkeys as [?%Is_true_true Hkeys]).
  unfold ChibiosThread_init, member, fetch. rewrite Ht.
  match goal with H : has_key tg "p_ctx" = true |- _ => rewrite H end.
  assert (Hget : ∀ {A} key (m : Thread → A), has_key tg key = true →
            getitem tg a key m = ([], Ok (m t))).
  { intros A key m Hk. apply getitem_ok; [rewrite Hk; exact I | assumption]. }
  destruct (has_key tg "p_stklimit") eqn:Hsl;
    destruct (has_key tg "p_time") eqn:Htm;
    rewrite ?Hget by assumption; cbn -[Z.sub]; rewrite ?Hnm; cbn -[Z.sub];
    repeat case_bool_decide; cbn -[Z.sub]; try lia;
    unfold inf_read_memory; cbn -[Z.sub];
    try destruct (read_memory tg _ _); reflexivity.
Qed.

(** *** The fill scan *)

Lemma eqb_fill_byte b : Byte.eqb b fill_byte = true ↔ b = fill_byte.
Proof. split; [apply byte_dec_bl | apply byte_dec_lb]. Qed.

Lemma first_non_fill_all k stack :
  Forall (λ b, b = fill_byte) stack → first_non_fill k stack = None.
Proof.
  intros Hall. revert k.
  induction Hall as [|b stack Hb _ IH]; intros k; simpl; [reflexivity|].
  apply eqb_fill_byte in Hb. rewrite Hb. apply IH.
Qed.

Lemma first_non_fill_boundary k stack (i : nat) b :
  stack !! i = Some b → b ≠ fill_byte →
  (∀ j, (j < i)%nat → stack !! j = Some fill_byte) →
  first_non_fill k stack = Some (k + i)%nat.
Proof.
  revert k i. induction stack as [|each rest IH]; intros k i Hi Hb Hlow.
  - discriminate.
  - simpl. destruct i as [|i].
    + injection Hi as ->.
      destruct (Byte.eqb b fill_byte) eqn:E.
      * apply eqb_fill_byte in E. contradiction.
      * simpl. f_equal. lia.
    + assert (each = fill_byte) as ->.
      { specialize (Hlow 0%nat). simpl in Hlow.
        assert (Some each = Some fill_byte) by (apply Hlow; lia).
        congruence. }
      simpl. rewrite (IH (S k) i); [f_equal; lia | exact Hi | exact Hb |].
      intros j Hj. apply (Hlow (S j)). lia.
Qed.

Lemma scan_stack_all stack :
  Forall (λ b, b = fill_byte) stack → scan_stack stack = 0.
Proof. intros H. unfold scan_stack. now rewrite first_non_fill_all. Qed.

Lemma scan_stack_boundary stack (i : nat) b :
  stack !! i = Some b → b ≠ fill_byte →
  (∀ j, (j < i)%nat → stack !! j = Some fill_byte) →
  scan_stack stack = Z.of_nat i.
Proof.
  intros Hi Hb Hlow. unfold scan_stack.
  now rewrite (first_non_fill_boundary 0 stack i b).
Qed.

(** C3. When the stack limit is there and positive and the stack region can
    be read, [stack_unused] is the index of the first byte of the region
    that is not the fill byte 0x55, and 0 when every byte is the fill byte.
    So an all-fill region gives 0, a region whose byte 0 is not fill gives
    0, and seven fill bytes before a non-fill byte give 7. *)
Theorem stack_unused_is_first_non_fill tg a t nm stack :
  readable tg a t nm →
  has_key tg "p_stklimit" →
  p_stklimit t > 0 →
  read_memory tg (p_stklimit t) (p_ctx_r13 t - p_stklimit t) = Some stack →
  ∃ tr ch,
    ChibiosThread_init tg a = (tr, Ok ch) ∧
    reads tr = [(p_stklimit t, p_ctx_r13 t - p_stklimit t)] ∧
    (Forall (λ b, b = fill_byte) stack → stack_unused ch = 0) ∧
    (∀ (i : nat) b,
        stack !! i = Some b → b ≠ fill_byte →
        (∀ j, (j < i)%nat → stack !! j = Some fill_byte) →
        stack_unused ch = Z.of_nat i) ∧
    (∀ b rest, stack = b :: rest → b ≠ fill_byte → stack_unused ch = 0) ∧
    (∀ b rest,
        stack = replicate 7 fill_byte ++ b :: rest → b ≠ fill_byte →
        stack_unused ch = 7).
Proof.
  intros Hr Hkey%Is_true_true Hpos Hread.
  rewrite (ChibiosThread_init_readable tg a t nm Hr), Hkey.
  cbn zeta. rewrite bool_decide_eq_true_2 by exact Hpos. rewrite Hread.
  eexists _, _. split; [reflexivity|].
  unfold stack_unused; cbn [_stack_unused reads omap list_omap].
  split; [reflexivity|].
  split; [apply scan_stack_all|].
  split; [apply scan_stack_boundary|].
  split.
  - intros b rest -> Hb. now apply (scan_stack_boundary _ 0%nat b).
  - intros b rest -> Hb. apply (scan_stack_boundary _ 7%nat b); [reflexivity|exact Hb|].
    intros j Hj. do 7 (destruct j as [|j]; [reflexivity|]). lia.
Qed.

(** C4. With the stack limit member missing, or there with a value that is
    not positive, extraction gives [stack_size = 0] and [stack_unused = 0]
    and reads no raw memory, whatever the saved stack pointer is. *)
Theorem no_stack_limit_no_scan tg a t nm :
  readable tg a t nm →
  ¬ has_key tg "p_stklimit" ∨ p_stklimit t ≤ 0 →
  ∃ tr ch,
    ChibiosThread_init tg a = (tr, Ok ch) ∧
    reads tr = [] ∧ stack_size ch = 0 ∧ stack_unused ch = 0.
Proof.
  intros Hr Hno.
  rewrite (ChibiosThread_init_readable tg a t nm Hr). cbn zeta.
  rewrite bool_decide_eq_false_2.
  - eexists _, _. split; [reflexivity|]. repeat split.
  - destruct (has_key tg "p_stklimit"); [|lia].
    destruct Hno as [Hno|Hno]; [destruct Hno; exact I | lia].
Qed.

(** C10. With a positive stack limit above the saved stack pointer,
    extraction still succeeds: nothing checks [stack_top >= stack_limit],
    [stack_size] is the negative difference, and the raw read is asked for
    with that negative length. *)
Theorem negative_stack_size_unguarded tg a t nm :
  readable tg a t nm →
  has_key tg "p_stklimit" →
  p_stklimit t > 0 →
  p_ctx_r13 t < p_stklimit t →
  ∃ tr ch,
    ChibiosThread_init tg a = (tr, Ok ch) ∧
    stack_size ch = p_ctx_r13 t - p_stklimit t ∧
    stack_size ch < 0 ∧
    reads tr = [(p_stklimit t, stack_size ch)].
Proof.
  intros Hr Hkey%Is_true_true Hpos Hbelow.
  rewrite (ChibiosThread_init_readable tg a t nm Hr), Hkey.
  cbn zeta. rewrite bool_decide_eq_true_2 by exact Hpos.
  eexists _, _. split; [reflexivity|].
  unfold stack_size; cbn [_stack_size reads omap list_omap].
  repeat split. lia.
Qed.

(** *** The state ordinal *)

Lemma py_getitem_nonneg {A} (l : list A) i :
  0 ≤ i < Z.of_nat (length l) →
  ∃ x, l !! Z.to_nat i = Some x ∧ py_getitem l i = Ok x.
Proof.
  intros Hi. unfold py_getitem. cbn zeta.
  rewrite (bool_decide_eq_false_2 (i < 0)) by lia.
  rewrite bool_decide_eq_true_2 by lia.
  destruct (lookup_lt_is_Some_2 l (Z.to_nat i)) as [x Hx]; [lia|].
  exists x. now rewrite Hx.
Qed.

Lemma py_getitem_negative {A} (l : list A) i :
  - Z.of_nat (length l) ≤ i < 0 →
  ∃ x, l !! Z.to_nat (Z.of_nat (length l) + i) = Some x ∧
       py_getitem l i = Ok x.
Proof.
  intros Hi. unfold py_getitem. cbn zeta.
  rewrite (bool_decide_eq_true_2 (i < 0)) by lia.
  rewrite bool_decide_eq_true_2 by lia.
  replace (i + Z.of_nat (length l)) with (Z.of_nat (length l) + i) by lia.
  destruct (lookup_lt_is_Some_2 l (Z.to_nat (Z.of_nat (length l) + i)))
    as [x Hx]; [lia|].
  exists x. now rewrite Hx.
Qed.

Lemma py_getitem_out_of_range {A} (l : list A) i :
  Z.of_nat (length l) ≤ i ∨ i < - Z.of_nat (length l) →
  py_getitem l i = Raise IndexError.
Proof.
  intros Hi. unfold py_getitem. cbn zeta.
  destruct (bool_decide (i < 0)) eqn:E;
    [apply bool_decide_eq_true in E | apply bool_decide_eq_false in E];
    rewrite bool_decide_eq_false_2 by lia; reflexivity.
Qed.

Lemma state_stored_unchanged tg a t nm :
  readable tg a t nm →
  ∃ tr ch, ChibiosThread_init tg a = (tr, Ok ch) ∧ state ch = p_state t.
Proof.
  intros Hr. rewrite (ChibiosThread_init_readable tg a t nm Hr).
  eexists _, _. split; reflexivity.
Qed.

(** C7, as the code has it. Extraction does not check the state ordinal: it
    succeeds for every ordinal and keeps it as read. The ordinal meets the
    15-entry table only when [state_str] is read, that is when the row is
    formatted: there 14, the last index, gives FINAL, and 15 or more raises
    IndexError instead of reading past the table. *)
Theorem state_checked_at_state_str tg a t nm :
  readable tg a t nm →
  ∃ tr ch,
    ChibiosThread_init tg a = (tr, Ok ch) ∧
    state ch = p_state t ∧
    (p_state t = 14 → state_str ch = Ok "FINAL") ∧
    (Z.of_nat (length THREAD_STATE) ≤ p_state t →
     state_str ch = Raise IndexError ∧
     THREAD_INFO_FORMAT_format ch = ([], Raise IndexError)).
Proof.
  intros Hr.
  destruct (state_stored_unchanged tg a t nm Hr) as (tr & ch & Hinit & Hst).
  exists tr, ch. split; [exact Hinit|]. split; [exact Hst|].
  unfold THREAD_INFO_FORMAT_format, state_str. rewrite Hst. split.
  - intros ->. reflexivity.
  - intros Hbig. now rewrite py_getitem_out_of_range by (left; exact Hbig).
Qed.

(** C9. No state ordinal is refused at extraction: the ordinal is stored as
    read. An ordinal n with -15 <= n <= -1 makes [state_str] give the entry
    [THREAD_STATE[15 + n]], the name of another state, and an ordinal that
    is 15 or more, or below -15, raises only when [state_str] is read. *)
Theorem negative_state_ordinal_wraps tg a t nm :
  readable tg a t nm →
  ∃ tr ch,
    ChibiosThread_init tg a = (tr, Ok ch) ∧
    state ch = p_state t ∧
    (-15 ≤ p_state t ≤ -1 →
     ∃ s, THREAD_STATE !! Z.to_nat (15 + p_state t) = Some s ∧
          state_str ch = Ok s) ∧
    (15 ≤ p_state t ∨ p_state t < -15 → state_str ch = Raise IndexError).
Proof.
  intros Hr.
  destruct (state_stored_unchanged tg a t nm Hr) as (tr & ch & Hinit & Hst).
  exists tr, ch. split; [exact Hinit|]. split; [exact Hst|].
  unfold state_str. rewrite Hst. split.
  - intros Hneg. apply (py_getitem_negative THREAD_STATE). simpl. lia.
  - intros Hout. apply py_getitem_out_of_range. simpl. lia.
Qed.

(** ** The registry walk *)

Lemma printed_app tr1 tr2 : printed (tr1 ++ tr2) = printed tr1 ++ printed tr2.
Proof. apply omap_app. Qed.

Lemma rows_app tr1 tr2 : rows (tr1 ++ tr2) = rows tr1 ++ rows tr2.
Proof. apply omap_app. Qed.

Lemma reads_app tr1 tr2 : reads (tr1 ++ tr2) = reads tr1 ++ reads tr2.
Proof. apply omap_app. Qed.

Lemma init_summary tg a t nm :
  readable tg a t nm →
  ∃ tr ch,
    ChibiosThread_init tg a = (tr, Ok ch) ∧
    printed tr = [] ∧ rows tr = [] ∧
    state ch = p_state t ∧ address ch = a.
Proof.
  intros Hr. rewrite (ChibiosThread_init_readable tg a t nm Hr). cbn zeta.
  eexists _, _. split; [reflexivity|].
  repeat split; case_bool_decide; reflexivity.
Qed.

(** One turn of the loop on a thread whose newer link can be followed:
    the row is printed, then the back link of the next node decides. *)
Lemma walk_body_live tg a next :
  well_typed tg → live_thread tg a → newer_of tg a = Some next →
  ∃ tr r,
    printed tr = [PrintRow r] ∧ rows tr = [r] ∧
    thread_row tg a = Ok r ∧ col_Address r = a ∧
    walk_body tg a =
      (tr, match older_of tg next with
           | Some older =>
               if bool_decide (older ≠ a)
               then Raise (GdbError rlist_pointer_invalid) else Ok next
           | None => Raise MemoryError
           end).
Proof.
  intros (Hnewer & Holder & Hkeys) Hlive Hnext.
  unfold live_thread in Hlive. unfold newer_of in Hnext.
  destruct (threads tg !! a) as [t|] eqn:Ht; [|destruct Hlive].
  destruct Hlive as [[nm Hnm] Hstate]. injection Hnext as Hnext.
  assert (Hr : readable tg a t nm) by (repeat split; assumption).
  destruct (init_summary tg a t nm Hr)
    as (tr & ch & Hinit & Hpr & Hrows & Hst & Haddr).
  destruct (py_getitem_nonneg THREAD_STATE (p_state t)) as (s & _ & Hs);
    [simpl; lia|].
  unfold thread_row, walk_body. rewrite Hinit. cbn [mbind M_bind].
  unfold THREAD_INFO_FORMAT_format, state_str. rewrite Hst, Hs.
  rewrite (getitem_ok tg a "p_newer" p_newer t Hnewer Ht), Hnext.
  cbn [mbind M_bind lift mret M_ret emit].
  unfold older_of, getitem.
  destruct (has_key tg "p_older"); [|destruct Holder].
  eexists _, _.
  split; [|split; [|split; [reflexivity|split; [exact Haddr|]]]].
  3: { destruct (threads tg !! next); cbn; [case_bool_decide|]; cbn;
       rewrite ?app_nil_r; reflexivity. }
  - now rewrite printed_app, Hpr.
  - now rewrite rows_app, Hrows.
Qed.

Lemma after_after tr1 tr2 rest :
  after tr1 (after tr2 rest) = after (tr1 ++ tr2) rest.
Proof.
  destruct rest as [[tr r]|]; [|reflexivity].
  unfold after. simpl. now rewrite app_assoc.
Qed.

Lemma walk_step tg fuel a tr next :
  a ≠ rlist tg → walk_body tg a = (tr, Ok next) →
  walk (S fuel) tg (rlist tg) a = after tr (walk fuel tg (rlist tg) next).
Proof.
  intros Ha Hbody. simpl. rewrite bool_decide_eq_true_2 by exact Ha.
  now rewrite Hbody.
Qed.

Lemma walk_raise tg fuel a tr e :
  a ≠ rlist tg → walk_body tg a = (tr, Raise e) →
  walk (S fuel) tg (rlist tg) a = Some (tr, Raise e).
Proof.
  intros Ha Hbody. simpl. rewrite bool_decide_eq_true_2 by exact Ha.
  now rewrite Hbody.
Qed.

(** The loop along consistently linked threads [ns]: it prints their rows,
    in order, and goes on from the node [c] after them. *)
Lemma walk_adjacent tg :
  well_typed tg →
  ∀ ns c,
    adjacent tg (ns ++ [c]) →
    Forall (live_thread tg) ns →
    Forall (λ n, n ≠ rlist tg) ns →
    ∃ tr,
      printed tr = PrintRow <$> rows tr ∧
      Forall2 (λ a r, thread_row tg a = Ok r) ns (rows tr) ∧
      col_Address <$> rows tr = ns ∧
      ∀ fuel,
        walk (length ns + fuel) tg (rlist tg) (hd c ns) =
        after tr (walk fuel tg (rlist tg) c).
Proof.
  intros Hty ns. induction ns as [|n ns IH]; intros c Hadj Hlive Hne.
  - exists []. repeat split; [constructor|].
    intros fuel. simpl. now destruct (walk fuel tg (rlist tg) c) as [[? ?]|].
  - apply Forall_cons in Hlive as [Hn Hlive].
    apply Forall_cons in Hne as [Hnne Hne].
    destruct Hadj as [Hlink Hadj].
    assert (Hcons : consistent tg n (hd c ns)) by (destruct ns; exact Hlink).
    destruct Hcons as [Hnw Hol].
    destruct (walk_body_live tg n (hd c ns) Hty Hn Hnw)
      as (tr1 & r & Hpr1 & Hrows1 & Hrow & Haddr & Hbody).
    rewrite Hol, bool_decide_eq_false_2 in Hbody by (intros H; now apply H).
    destruct (IH c Hadj Hlive Hne) as (tr2 & Hpr2 & Hrows2 & Haddr2 & Hwalk).
    exists (tr1 ++ tr2).
    rewrite printed_app, rows_app, Hpr1, Hrows1, Hpr2.
    split; [reflexivity|]. split; [now constructor|].
    split; [cbn [app fmap list_fmap]; f_equal; [exact Haddr | exact Haddr2]|].
    intros fuel. cbn [length hd Nat.add].
    rewrite (walk_step tg _ n tr1 (hd c ns) Hnne Hbody), Hwalk.
    apply after_after.
Qed.

(** *** No thread twice *)

Lemma adjacent_lookup tg l (i : nat) a b :
  adjacent tg l → l !! i = Some a → l !! S i = Some b → consistent tg a b.
Proof.
  revert i. induction l as [|x l IH]; intros i Hadj Ha Hb; [discriminate|].
  destruct Hadj as [Hlink Hadj]. destruct i as [|i].
  - injection Ha as ->. destruct l as [|y l]; [discriminate|].
    injection Hb as ->. exact Hlink.
  - exact (IH i Hadj Ha Hb).
Qed.

(** The newer link is a function: equal nodes have equal followers. *)
Lemma adjacent_shift tg s (i j : nat) x :
  adjacent tg s → s !! i = Some x → s !! j = Some x →
  ∀ (d : nat) y,
    s !! (j + d)%nat = Some y → (i + d < length s)%nat →
    s !! (i + d)%nat = Some y.
Proof.
  intros Hadj Hi Hj d. induction d as [|d IH]; intros y Hy Hlen.
  - rewrite Nat.add_0_r in *. congruence.
  - destruct (lookup_lt_is_Some_2 s (j + d)) as [z Hz].
    { apply lookup_lt_Some in Hy. lia. }
    destruct (lookup_lt_is_Some_2 s (i + S d)) as [y' Hy']; [exact Hlen|].
    assert (Hiz : s !! (i + d)%nat = Some z) by (apply IH; [exact Hz|lia]).
    rewrite Nat.add_succ_r in Hy, Hy'.
    destruct (adjacent_lookup tg s _ z y Hadj Hz Hy) as [H1 _].
    destruct (adjacent_lookup tg s _ z y' Hadj Hiz Hy') as [H2 _].
    rewrite Nat.add_succ_r, Hy'. congruence.
Qed.

Lemma registry_NoDup tg ns : registry tg ns → NoDup ns.
Proof.
  intros [[_ Hadj] Hne]. change (adjacent tg (ns ++ [rlist tg])) in Hadj.
  assert (Hlt : ∀ (i j : nat) x,
            (i < j)%nat → ns !! i = Some x → ns !! j = Some x → False).
  { intros i j x Hij Hi Hj.
    pose proof (lookup_lt_Some _ _ _ Hj) as Hjlen.
    assert (Hend : (ns ++ [rlist tg]) !! (j + (length ns - j))%nat
                   = Some (rlist tg)).
    { replace (j + (length ns - j))%nat with (length ns + 0)%nat by lia.
      now rewrite lookup_app_r, Nat.add_comm, Nat.add_sub by lia. }
    pose proof (adjacent_shift tg (ns ++ [rlist tg]) i j x Hadj
                  (lookup_app_l_Some _ _ _ _ Hi) (lookup_app_l_Some _ _ _ _ Hj)
                  (length ns - j)%nat (rlist tg) Hend) as Hback.
    rewrite length_app, lookup_app_l in Hback by (simpl; lia).
    specialize (Hback ltac:(simpl; lia)).
    rewrite Forall_lookup in Hne. now apply (Hne _ _ Hback). }
  apply NoDup_alt. intros i j x Hi Hj.
  destruct (Nat.lt_trichotomy i j) as [H|[H|H]]; [|exact H|].
  - destruct (Hlt i j x H Hi Hj).
  - destruct (Hlt j i x H Hj Hi).
Qed.

(** *** The whole command *)

Lemma sanity_check_links tg :
  has_key tg "p_newer" → has_key tg "p_older" →
  sanity_check tg = (advisories tg, Ok ()).
Proof.
  intros Hn Ho. unfold sanity_check, advisories.
  destruct (has_key tg "p_newer"); [|destruct Hn].
  destruct (has_key tg "p_older"); [|destruct Ho].
  destruct (has_key tg "p_stklimit"), (has_key tg "p_time"); reflexivity.
Qed.

Lemma invoke_well_typed tg t0 fuel :
  has_key tg "p_newer" → has_key tg "p_older" →
  threads tg !! rlist tg = Some t0 →
  invoke fuel tg =
  after (advisories tg ++ [Print THREAD_INFO_HEADER_FORMAT])
    (walk fuel tg (rlist tg) (p_newer t0)).
Proof.
  intros Hn Ho Ht0. unfold invoke.
  rewrite (sanity_check_links tg Hn Ho).
  unfold member, fetch. rewrite Ht0.
  apply Is_true_true in Hn, Ho. rewrite Hn, Ho.
  cbn [mbind M_bind mret M_ret emit and_then].
  now rewrite !app_nil_l, !app_nil_r.
Qed.

Lemma registry_first tg ns :
  registry tg ns →
  ∃ t0, threads tg !! rlist tg = Some t0 ∧ p_newer t0 = hd (rlist tg) ns.
Proof.
  intros [[Hlink _] _].
  assert (Hc : consistent tg (rlist tg) (hd (rlist tg) ns))
    by (destruct ns; exact Hlink).
  destruct Hc as [Hnw _]. unfold newer_of in Hnw.
  destruct (threads tg !! rlist tg) as [t0|]; [|discriminate].
  exists t0. split; [reflexivity|]. now injection Hnw.
Qed.

(** The command on a well-formed registry of live threads. *)
Lemma invoke_registry tg ns :
  well_typed tg → registry tg ns → Forall (live_thread tg) ns →
  ∃ tr,
    (∀ fuel, (length ns < fuel)%nat → invoke fuel tg = Some (tr, Ok ())) ∧
    printed tr =
      advisories tg ++ Print THREAD_INFO_HEADER_FORMAT :: (PrintRow <$> rows tr) ∧
    Forall2 (λ a r, thread_row tg a = Ok r) ns (rows tr) ∧
    col_Address <$> rows tr = ns.
Proof.
  intros Hty Hreg Hlive.
  destruct (registry_first tg ns Hreg) as (t0 & Ht0 & Hfirst).
  pose proof Hreg as [[_ Hadj] Hne].
  change (adjacent tg (ns ++ [rlist tg])) in Hadj.
  destruct (walk_adjacent tg Hty ns (rlist tg) Hadj Hlive Hne)
    as (tr & Hpr & Hrows & Haddr & Hwalk).
  exists ((advisories tg ++ [Print THREAD_INFO_HEADER_FORMAT]) ++ tr).
  assert (Hadv : printed (advisories tg) = advisories tg ∧
                 rows (advisories tg) = []).
  { unfold advisories.
    destruct (has_key tg "p_stklimit"), (has_key tg "p_time"); now split. }
  destruct Hadv as [Hadv1 Hadv2].
  rewrite !printed_app, !rows_app, Hadv1, Hadv2, Hpr. cbn [printed rows omap list_omap app].
  split; [|split; [now rewrite <- app_assoc|split; assumption]].
  intros fuel Hfuel. destruct Hty as (Hn & Ho & _).
  rewrite (invoke_well_typed tg t0 fuel Hn Ho Ht0), Hfirst.
  replace fuel with (length ns + S (fuel - S (length ns)))%nat by lia.
  rewrite Hwalk. cbn [walk]. rewrite bool_decide_eq_false_2 by (intros H; now apply H).
  cbn. now rewrite !app_nil_r.
Qed.

(** C1. On a circular registry whose links satisfy the older/newer
    invariant and which holds N threads besides the anchor, the command
    extracts and prints exactly N rows, one per thread in newer order, no
    thread twice, and ends normally when the cursor is back at the anchor. *)
Theorem walk_visits_each_thread_once tg ns :
  well_typed tg → registry tg ns → Forall (live_thread tg) ns →
  ∃ tr,
    (∀ fuel, (length ns < fuel)%nat → invoke fuel tg = Some (tr, Ok ())) ∧
    length (rows tr) = length ns ∧
    col_Address <$> rows tr = ns ∧
    Forall2 (λ a r, thread_row tg a = Ok r) ns (rows tr) ∧
    NoDup (col_Address <$> rows tr).
Proof.
  intros Hty Hreg Hlive.
  destruct (invoke_registry tg ns Hty Hreg Hlive)
    as (tr & Hinv & _ & Hrows & Haddr).
  exists tr. split; [exact Hinv|].
  split; [symmetry; exact (Forall2_length _ _ _ Hrows)|].
  split; [exact Haddr|]. split; [exact Hrows|].
  rewrite Haddr. exact (registry_NoDup tg ns Hreg).
Qed.

(** C2, as the code has it. Let the back link be broken at the k-th node
    reached, k >= 2: the threads before it are consistently linked and
    live, and the older pointer of the node the last of them leads to is
    not that thread. Then the command stops with the fixed error "Rlist
    pointer invalid--corrupt list?", which is the same at every node and
    names none, after printing the rows of exactly the k-1 threads before
    the mismatch, and visits nothing further. *)
Theorem broken_back_link_aborts tg ns l bad older :
  well_typed tg →
  adjacent tg (rlist tg :: ns ++ [l]) →
  Forall (λ n, n ≠ rlist tg) (ns ++ [l]) →
  Forall (live_thread tg) (ns ++ [l]) →
  newer_of tg l = Some bad →
  older_of tg bad = Some older →
  older ≠ l →
  ∃ tr,
    (∀ fuel, (length ns < fuel)%nat →
       invoke fuel tg = Some (tr, Raise (GdbError rlist_pointer_invalid))) ∧
    length (rows tr) = length (ns ++ [l]) ∧
    col_Address <$> rows tr = ns ++ [l] ∧
    Forall2 (λ a r, thread_row tg a = Ok r) (ns ++ [l]) (rows tr).
Proof.
  intros Hty [Hlink Hadj] Hne Hlive Hnw Hol Hbad.
  assert (Hc : consistent tg (rlist tg) (hd l ns))
    by (destruct ns; exact Hlink).
  destruct Hc as [Hfirst _]. unfold newer_of in Hfirst.
  destruct (threads tg !! rlist tg) as [t0|] eqn:Ht0; [|discriminate].
  injection Hfirst as Hfirst.
  apply Forall_app in Hne as [Hne Hlne]. apply Forall_cons in Hlne as [Hlne _].
  apply Forall_app in Hlive as [Hlive Hl]. apply Forall_cons in Hl as [Hl _].
  destruct (walk_adjacent tg Hty ns l Hadj Hlive Hne)
    as (tr & Hpr & Hrows & Haddr & Hwalk).
  destruct (walk_body_live tg l bad Hty Hl Hnw)
    as (trl & r & Hprl & Hrowsl & Hrow & Haddrl & Hbody).
  rewrite Hol, bool_decide_eq_true_2 in Hbody by exact Hbad.
  exists ((advisories tg ++ [Print THREAD_INFO_HEADER_FORMAT]) ++ tr ++ trl).
  assert (Hadv : rows (advisories tg) = []).
  { unfold advisories.
    now destruct (has_key tg "p_stklimit"), (has_key tg "p_time"). }
  rewrite !rows_app, Hadv, Hrowsl. cbn [rows omap list_omap app].
  assert (Hall : Forall2 (λ a r, thread_row tg a = Ok r) (ns ++ [l])
                   (rows tr ++ [r])).
  { apply Forall2_app; [exact Hrows | now constructor]. }
  split; [|split; [symmetry; exact (Forall2_length _ _ _ Hall)|split]].
  - intros fuel Hfuel. destruct Hty as (Hn & Ho & _).
    rewrite (invoke_well_typed tg t0 fuel Hn Ho Ht0), Hfirst.
    replace fuel with (length ns + S (fuel - S (length ns)))%nat by lia.
    rewrite Hwalk, (walk_raise tg _ l trl _ Hlne Hbody). reflexivity.
  - rewrite fmap_app, Haddr. cbn. now rewrite Haddrl.
  - exact Hall.
Qed.

(** The row of a thread shows what its extraction found. *)
Lemma thread_row_of_init tg a tr ch r :
  ChibiosThread_init tg a = (tr, Ok ch) → thread_row tg a = Ok r →
  col_Address r = address ch ∧ col_Free r = stack_unused ch ∧
  col_Total r = stack_size ch ∧ col_Name r = name ch ∧
  state_str ch = Ok (col_State r).
Proof.
  intros Hinit. unfold thread_row. rewrite Hinit. cbn [mbind M_bind].
  unfold THREAD_INFO_FORMAT_format, lift.
  destruct (state_str ch) as [s|e]; cbn; [|discriminate].
  intros [= <-]. repeat split.
Qed.

(** C5. A raw read that fails during the fill scan is absorbed: the
    extraction of that thread still succeeds, with [stack_unused = 0] and
    with its name, state, flags, priority and reference count as read, and
    the walk of the registry the thread is in goes on: it prints the row of
    that thread, with 0 free, and a row for every thread after it. *)
Theorem scan_failure_is_absorbed tg before a later t nm :
  well_typed tg →
  registry tg (before ++ a :: later) →
  Forall (live_thread tg) (before ++ a :: later) →
  threads tg !! a = Some t → p_name t = Some nm →
  has_key tg "p_stklimit" → p_stklimit t > 0 →
  read_memory tg (p_stklimit t) (p_ctx_r13 t - p_stklimit t) = None →
  (∃ tr ch,
     ChibiosThread_init tg a = (tr, Ok ch) ∧
     stack_unused ch = 0 ∧
     name ch = (if bool_decide (nm = "") then "<no name>" else nm) ∧
     state ch = p_state t ∧ flags ch = p_flags t ∧
     prio ch = p_prio t ∧ _refs ch = p_refs t) ∧
  (∃ tr rb r rl,
     (∀ fuel, (length (before ++ a :: later) < fuel)%nat →
        invoke fuel tg = Some (tr, Ok ())) ∧
     rows tr = rb ++ r :: rl ∧
     length rb = length before ∧
     col_Address r = a ∧ col_Free r = 0 ∧
     Forall2 (λ a r, thread_row tg a = Ok r) later rl).
Proof.
  intros Hty Hreg Hlive Ht Hnm Hkey%Is_true_true Hpos Hread.
  assert (Hr : readable tg a t nm).
  { destruct Hty as (_ & _ & Hkeys). repeat split; assumption. }
  assert (Hinit : ∃ tr ch,
     ChibiosThread_init tg a = (tr, Ok ch) ∧
     stack_unused ch = 0 ∧
     name ch = (if bool_decide (nm = "") then "<no name>" else nm) ∧
     state ch = p_state t ∧ flags ch = p_flags t ∧
     prio ch = p_prio t ∧ _refs ch = p_refs t).
  { rewrite (ChibiosThread_init_readable tg a t nm Hr), Hkey. cbn zeta.
    rewrite bool_decide_eq_true_2 by exact Hpos. rewrite Hread.
    eexists _, _. split; [reflexivity|].
    unfold name. cbn [_name].
    repeat split. destruct nm; reflexivity. }
  split; [exact Hinit|].
  destruct Hinit as (tra & ch & Hinit & Hunused & _).
  destruct (invoke_registry tg _ Hty Hreg Hlive)
    as (tr & Hinv & _ & Hrows & Haddr).
  apply Forall2_app_inv_l in Hrows as (rb & rest & Hrb & Hrest & Hsplit).
  apply Forall2_cons_inv_l in Hrest as (r & rl & Hrow & Hrl & ->).
  destruct (thread_row_of_init tg a tra ch r Hinit Hrow)
    as (Hra & Hfree & _).
  exists tr, rb, r, rl.
  split; [exact Hinv|]. split; [exact Hsplit|].
  split; [symmetry; exact (Forall2_length _ _ _ Hrb)|].
  split; [rewrite Hra; now rewrite (ChibiosThread_init_readable tg a t nm Hr) in Hinit; injection Hinit as _ <-|].
  split; [now rewrite Hfree|exact Hrl].
Qed.

(** C6. The schema check fails, with the registry-not-enabled error, exactly
    when one of the link members [p_newer], [p_older] is missing from the
    [Thread] type. A missing [p_stklimit] or [p_time] never makes it fail:
    the check then passes and prints a warning for each of the two that is
    missing, and nothing else. *)
Theorem sanity_check_fails_iff_link_missing tg :
  ((sanity_check tg).2 = Raise (GdbError registry_not_enabled) ↔
   ¬ has_key tg "p_newer" ∨ ¬ has_key tg "p_older") ∧
  ((sanity_check tg).2 = Ok () ↔
   has_key tg "p_newer" ∧ has_key tg "p_older") ∧
  ((sanity_check tg).2 = Ok () →
   (sanity_check tg).1 =
     (if has_key tg "p_stklimit" then [] else [Print no_p_stklimit]) ++
     (if has_key tg "p_time" then [] else [Print no_p_time])) ∧
  ((sanity_check tg).2 ≠ Ok () → (sanity_check tg).1 = []).
Proof.
  unfold sanity_check.
  destruct (has_key tg "p_newer"), (has_key tg "p_older"),
    (has_key tg "p_stklimit"), (has_key tg "p_time"); cbn;
    (split; [|split; [|split]]); try split; intros;
    try reflexivity; try discriminate; try (exfalso; tauto);
    try tauto; try congruence.
Qed.

(** ** The shape of the output, whatever the target holds *)

Lemma quiet_mret {A} (a : A) : quiet (mret a : M A).
Proof. reflexivity. Qed.

Lemma quiet_raise {A} e : quiet (raise e : M A).
Proof. reflexivity. Qed.

Lemma quiet_bind {A B} (m : M A) (f : A → M B) :
  quiet m → (∀ a, quiet (f a)) → quiet (m ≫= f).
Proof.
  unfold quiet. intros Hm Hf.
  destruct m as [tr [a|e]]; cbn [mbind M_bind fst] in *; [|exact Hm].
  specialize (Hf a). destruct (f a) as [tr' r]. cbn [fst] in *.
  now rewrite printed_app, Hm, Hf.
Qed.

Lemma quiet_getitem {A} tg a key (member : Thread → A) :
  quiet (getitem tg a key member).
Proof.
  unfold getitem. destruct (has_key tg key); [|reflexivity].
  destruct (threads tg !! a); reflexivity.
Qed.

Lemma quiet_member tg key : quiet (member tg key).
Proof. unfold member. destruct (has_key tg key); reflexivity. Qed.

Lemma quiet_fetch {A} tg a (field : Thread → A) : quiet (fetch tg a field).
Proof. unfold fetch. destruct (threads tg !! a); reflexivity. Qed.

Lemma quiet_string_ v : quiet (string_ v).
Proof. destruct v; reflexivity. Qed.

Lemma quiet_inf_read_memory tg addr len : quiet (inf_read_memory tg addr len).
Proof.
  unfold inf_read_memory, quiet. cbn.
  destruct (read_memory tg addr len); reflexivity.
Qed.

Lemma quiet_try_except_MemoryError {A} (body handler : M A) :
  quiet body → quiet handler → quiet (try_except_MemoryError body handler).
Proof.
  unfold quiet, try_except_MemoryError.
  destruct body as [tr [a|[]]]; cbn [fst]; try (intros H _; exact H).
  destruct handler as [tr' r]. cbn [fst]. intros H1 H2.
  now rewrite printed_app, H1, H2.
Qed.

Lemma quiet_lift {A} (r : Result A) : quiet (lift r).
Proof. reflexivity. Qed.

Create HintDb quiet discriminated.
#[local] Hint Resolve quiet_mret quiet_raise quiet_getitem quiet_string_
  quiet_inf_read_memory quiet_lift quiet_member quiet_fetch : quiet.

Ltac quiet_step :=
  match goal with
  | |- quiet (if ?b then _ else _) => destruct b
  | |- quiet (_ ≫= _) => apply quiet_bind; [|intros ?]
  | |- quiet (try_except_MemoryError _ _) =>
      apply quiet_try_except_MemoryError
  | |- quiet _ => solve [auto with quiet]
  end.

Lemma quiet_ChibiosThread_init tg a : quiet (ChibiosThread_init tg a).
Proof. unfold ChibiosThread_init. repeat quiet_step. Qed.

Lemma quiet_THREAD_INFO_FORMAT_format ch : quiet (THREAD_INFO_FORMAT_format ch).
Proof. unfold THREAD_INFO_FORMAT_format. repeat quiet_step. Qed.

Lemma bind_Ok_inv {A B} (m : M A) (f : A → M B) b :
  (m ≫= f).2 = Ok b → ∃ a, m.2 = Ok a ∧ (f a).2 = Ok b.
Proof.
  destruct m as [tr [a|e]]; cbn; [|discriminate].
  intros H. exists a. split; [reflexivity|]. now destruct (f a).
Qed.

Lemma getitem_Ok_inv {A} tg a key (member : Thread → A) x :
  (getitem tg a key member).2 = Ok x →
  ∃ t, threads tg !! a = Some t ∧ x = member t.
Proof.
  unfold getitem. destruct (has_key tg key); [|discriminate].
  destruct (threads tg !! a) as [t|]; [|discriminate].
  intros [= <-]. now exists t.
Qed.

Lemma fetch_Ok_inv {A} tg a (field : Thread → A) x :
  (fetch tg a field).2 = Ok x →
  ∃ t, threads tg !! a = Some t ∧ x = field t.
Proof.
  unfold fetch. destruct (threads tg !! a) as [t|]; [|discriminate].
  intros [= <-]. now exists t.
Qed.

(** A thread that was extracted could be read, and keeps its address. *)
Lemma ChibiosThread_init_Ok_inv tg a ch :
  (ChibiosThread_init tg a).2 = Ok ch →
  is_Some (threads tg !! a) ∧ address ch = a.
Proof.
  unfold ChibiosThread_init. intros H.
  do 10 (apply bind_Ok_inv in H as (? & _ & H)).
  apply bind_Ok_inv in H as (r13 & (t & Ht & _)%fetch_Ok_inv & H).
  rewrite Ht. split; [now exists t|].
  cbn in H. now injection H as <-.
Qed.

Lemma rows_printed tr : rows (printed tr) = rows tr.
Proof.
  unfold rows, printed. induction tr as [|ev tr IH]; [reflexivity|].
  destruct ev; simpl; [exact IH | f_equal; exact IH | exact IH].
Qed.

Lemma printed_nil_rows tr : printed tr = [] → rows tr = [].
Proof. intros H. now rewrite <- rows_printed, H. Qed.

Lemma printed_nil_rows_one tr r : printed tr = [PrintRow r] → rows tr = [r].
Proof. intros H. now rewrite <- rows_printed, H. Qed.

(** One turn of the loop, on any target: either it fails before the row is
    printed, or it prints the row of the thread, and goes on, if it does,
    to the newer of that thread. *)
Lemma walk_body_shape tg a tr res :
  walk_body tg a = (tr, res) →
  (printed tr = [] ∧ ∃ e, res = Raise e) ∨
  (∃ row n,
     thread_row tg a = Ok row ∧ col_Address row = a ∧
     printed tr = [PrintRow row] ∧ newer_of tg a = Some n ∧
     ∀ n', res = Ok n' → n' = n).
Proof.
  unfold walk_body.
  pose proof (quiet_ChibiosThread_init tg a) as Hq0.
  pose proof (ChibiosThread_init_Ok_inv tg a) as Hinv.
  destruct (ChibiosThread_init tg a) as [tr0 [ch|e]] eqn:Hinit;
    cbn [mbind M_bind]; unfold quiet in Hq0; cbn [fst snd] in *;
    [|intros [= <- <-]; left; eauto].
  destruct (Hinv ch eq_refl) as [[t Ht] Haddr].
  pose proof (quiet_THREAD_INFO_FORMAT_format ch) as Hqf.
  pose proof (thread_row_of_init tg a tr0 ch) as Hrow.
  unfold thread_row in Hrow. rewrite Hinit in Hrow. cbn [mbind M_bind] in Hrow.
  destruct (THREAD_INFO_FORMAT_format ch) as [trf [row|e]] eqn:Hf;
    unfold quiet in Hqf; cbn [fst snd mbind M_bind emit] in *.
  2: { intros [= <- <-]. left. rewrite printed_app, Hq0, Hqf. eauto. }
  match goal with
  | |- (let '(_, _) := (let '(_, _) := (let '(_, _) := ?rest in _) in _) in _) = _ → _ =>
      assert (Hqr : quiet rest) by (repeat quiet_step);
      assert (Hnext : ∀ n', rest.2 = Ok n' → n' = p_newer t);
      [|destruct rest as [trr rr]]
  end.
  { intros n' H.
    apply bind_Ok_inv in H as (n & (t' & Ht' & ->)%getitem_Ok_inv & H).
    apply bind_Ok_inv in H as (o & _ & H).
    rewrite Ht in Ht'. injection Ht' as <-.
    case_bool_decide; [discriminate|]. now injection H. }
  unfold quiet in Hqr. cbn [fst snd] in *.
  intros [= <- <-]. right. exists row, (p_newer t).
  destruct (Hrow row eq_refl eq_refl) as (Hra & _).
  split; [unfold thread_row; rewrite Hinit; cbn [mbind M_bind];
          now rewrite Hf|].
  split; [now rewrite Hra|].
  split; [|split; [unfold newer_of; now rewrite Ht|exact Hnext]].
  rewrite !printed_app, Hq0, Hqf.
  change (printed (PrintRow row :: trr)) with (PrintRow row :: printed trr).
  now rewrite Hqr.
Qed.

(** The loop, on any target and for any fuel that suffices: the rows
    printed are those of the threads met along the newer links, in order,
    and a normal end means the links led back to the anchor. *)
Lemma walk_shape tg fuel :
  ∀ c tr res,
    walk fuel tg (rlist tg) c = Some (tr, res) →
    ∃ e,
      printed tr = PrintRow <$> rows tr ∧
      Forall2 (λ a r, thread_row tg a = Ok r) (col_Address <$> rows tr) (rows tr) ∧
      trail tg c (col_Address <$> rows tr) e ∧
      (res = Ok () → e = rlist tg).
Proof.
  induction fuel as [|fuel IH]; intros c tr res Hwalk; [discriminate|].
  cbn [walk] in Hwalk. case_bool_decide as Hc.
  - destruct (walk_body tg c) as [tr1 [next|e]] eqn:Hbody;
      cbn [and_then] in Hwalk.
    + destruct (walk fuel tg (rlist tg) next) as [[tr2 res2]|] eqn:Hrest;
        [|discriminate].
      injection Hwalk as <- <-.
      destruct (walk_body_shape tg c _ _ Hbody)
        as [(_ & e & [=])|(row & n & Hrow & Haddr & Hpr & Hnw & Hn)].
      rewrite (Hn next eq_refl) in *.
      destruct (IH n tr2 res2 Hrest) as (e & Hpr2 & Hrows2 & Htrail & Hend).
      exists e.
      rewrite printed_app, rows_app, Hpr, Hpr2, (printed_nil_rows_one _ _ Hpr).
      cbn [app fmap list_fmap]. rewrite Haddr.
      split; [reflexivity|]. split; [now constructor|].
      split; [|exact Hend].
      cbn [trail]. split; [reflexivity|]. split; [exact Hc|].
      exists n. split; assumption.
    + injection Hwalk as <- <-.
      destruct (walk_body_shape tg c _ _ Hbody)
        as [(Hpr & _)|(row & n & Hrow & Haddr & Hpr & Hnw & _)].
      * exists c. rewrite Hpr, (printed_nil_rows _ Hpr).
        repeat split; [constructor|discriminate].
      * exists n. rewrite Hpr, (printed_nil_rows_one _ _ Hpr).
        cbn [fmap list_fmap]. rewrite Haddr.
        split; [reflexivity|]. split; [now repeat constructor|].
        split; [|discriminate].
        cbn [trail]. split; [reflexivity|]. split; [exact Hc|].
        exists n. now split.
  - injection Hwalk as <- <-. exists c.
    split; [reflexivity|]. split; [constructor|]. split; [reflexivity|].
    intros _. now apply dec_stable.
Qed.

Lemma advisories_printed tg :
  printed (advisories tg) = advisories tg ∧ rows (advisories tg) = [].
Proof.
  unfold advisories.
  destruct (has_key tg "p_stklimit"), (has_key tg "p_time"); now split.
Qed.

(** C8, as the code has it. The header and the rows are printed as the walk
    goes, so what the user sees of a run that returns is one of: the
    registry-not-enabled error alone; the warnings of the schema check,
    the header and gdb.MemoryError, when the anchor cannot be read (the
    header is printed before the anchor is first read); or the warnings,
    the header and the rows of the threads met so far along the newer
    links, in order. In the last case a normal end means the links led
    back to the anchor (the table is complete); an error comes after the
    rows already printed, which stay. *)
Theorem output_is_header_and_rows_so_far tg fuel tr res :
  invoke fuel tg = Some (tr, res) →
  (printed tr = [] ∧ res = Raise (GdbError registry_not_enabled)) ∨
  (printed tr = advisories tg ++ [Print THREAD_INFO_HEADER_FORMAT] ∧
   threads tg !! rlist tg = None ∧ res = Raise MemoryError) ∨
  (∃ t0 e,
     threads tg !! rlist tg = Some t0 ∧
     printed tr =
       advisories tg ++
       Print THREAD_INFO_HEADER_FORMAT :: (PrintRow <$> rows tr) ∧
     Forall2 (λ a r, thread_row tg a = Ok r)
       (col_Address <$> rows tr) (rows tr) ∧
     trail tg (p_newer t0) (col_Address <$> rows tr) e ∧
     (res = Ok () → e = rlist tg)).
Proof.
  intros Hinv.
  destruct (has_key tg "p_newer") eqn:Hn; [destruct (has_key tg "p_older") eqn:Ho|].
  - apply Is_true_true in Hn, Ho.
    destruct (threads tg !! rlist tg) as [t0|] eqn:Ht0.
    + rewrite (invoke_well_typed tg t0 fuel Hn Ho Ht0) in Hinv.
      destruct (walk fuel tg (rlist tg) (p_newer t0)) as [[tr2 res2]|] eqn:Hwalk;
        [|discriminate].
      injection Hinv as <- <-.
      destruct (walk_shape tg fuel _ _ _ Hwalk) as (e & Hpr & Hrows & Htrail & Hend).
      right; right. exists t0, e.
      destruct (advisories_printed tg) as [Hadv1 Hadv2].
      rewrite !printed_app, !rows_app, Hadv1, Hadv2, Hpr.
      cbn [rows omap list_omap app]. rewrite <- app_assoc.
      repeat split; assumption.
    + right; left. unfold invoke in Hinv.
      rewrite (sanity_check_links tg Hn Ho) in Hinv.
      unfold member, fetch in Hinv. rewrite Ht0 in Hinv.
      apply Is_true_true in Hn, Ho. rewrite Hn, Ho in Hinv.
      cbn in Hinv. injection Hinv as <- <-.
      rewrite printed_app. destruct (advisories_printed tg) as [-> _].
      now split.
  - left. unfold invoke, sanity_check in Hinv. rewrite Hn, Ho in Hinv.
    cbn in Hinv. injection Hinv as <- <-. now split.
  - left. unfold invoke, sanity_check in Hinv. rewrite Hn in Hinv.
    cbn in Hinv. injection Hinv as <- <-. now split.
Qed.


(** * Further properties of the code *)

(** ** When extraction succeeds, and how it fails *)

Lemma getitem_Ok_key {A} tg a key (member : Thread → A) x :
  (getitem tg a key member).2 = Ok x → has_key tg key.
Proof.
  unfold getitem. destruct (has_key tg key); [intros _; exact I|discriminate].
Qed.

Lemma member_Ok_key tg key u : (member tg key).2 = Ok u → has_key tg key.
Proof.
  unfold member. destruct (has_key tg key); [intros _; exact I|discriminate].
Qed.

Lemma string_Ok_inv v s : (string_ v).2 = Ok s → v = Some s.
Proof. destruct v; cbn; [now intros [= ->]|discriminate]. Qed.

Lemma ChibiosThread_init_Ok_readable tg a ch :
  (ChibiosThread_init tg a).2 = Ok ch → ∃ t nm, readable tg a t nm.
Proof.
  unfold ChibiosThread_init. intros H.
  apply bind_Ok_inv in H as (u & Kctx%member_Ok_key & H).
  apply bind_Ok_inv in H as (stklimit & _ & H).
  apply bind_Ok_inv in H as (stack & _ & H).
  apply bind_Ok_inv in H as (nm & Hname & H).
  apply bind_Ok_inv in Hname as (v & Hv & Hnm).
  pose proof (getitem_Ok_key _ _ _ _ _ Hv) as Kname.
  apply getitem_Ok_inv in Hv as (t & Ht & ->).
  apply string_Ok_inv in Hnm.
  apply bind_Ok_inv in H as (nm2 & _ & H).
  apply bind_Ok_inv in H as (st & Kstate%getitem_Ok_key & H).
  apply bind_Ok_inv in H as (fl & Kflags%getitem_Ok_key & H).
  apply bind_Ok_inv in H as (pr & Kprio%getitem_Ok_key & H).
  apply bind_Ok_inv in H as (rf & Krefs%getitem_Ok_key & H).
  exists t, nm. split; [|split; assumption].
  unfold mandatory_keys. repeat constructor; assumption.
Qed.

(** X1. Extraction yields a [ChibiosThread] exactly when the [Thread] type
    has the six mandatory members, the struct can be read and its name can
    be read; no other condition, on the stack or on the state, matters. *)
Theorem extraction_succeeds_iff_readable tg a :
  (∃ ch, (ChibiosThread_init tg a).2 = Ok ch) ↔ (∃ t nm, readable tg a t nm).
Proof.
  split.
  - intros [ch H]. exact (ChibiosThread_init_Ok_readable tg a ch H).
  - intros (t & nm & Hr).
    rewrite (ChibiosThread_init_readable tg a t nm Hr). cbn zeta.
    eexists. reflexivity.
Qed.

(** Go through the mandatory members up to the one that is missing. *)
Ltac split_keys Hs Hb :=
  match type of Hb with
  | Forall _ ?b =>
      destruct b as [|? b];
      [ first [discriminate Hs | injection Hs as <- <-; clear Hb]
      | first [discriminate Hs
              | injection Hs as <- Hs;
                apply Forall_cons in Hb as [?%Is_true_true Hb];
                split_keys Hs Hb] ]
  end.

(** X2. With the struct and its name readable, the first mandatory member,
    in the order the constructor reads them, that the [Thread] type lacks
    makes extraction raise gdb's no-such-member error for that member. *)
Theorem missing_member_raises tg a t nm before key later :
  mandatory_keys = before ++ key :: later →
  Forall (λ k, has_key tg k) before →
  ¬ has_key tg key →
  threads tg !! a = Some t → p_name t = Some nm →
  (ChibiosThread_init tg a).2 = Raise (gdb_error key).
Proof.
  intros Hsplit Hbefore Hkey Ht Hnm.
  assert (Hk : has_key tg key = false)
    by (destruct (has_key tg key); [destruct Hkey; exact I|reflexivity]).
  unfold mandatory_keys in Hsplit.
  split_keys Hsplit Hbefore;
    unfold ChibiosThread_init, getitem, member, fetch;
    repeat match goal with H : has_key _ _ = _ |- _ => rewrite H; clear H end;
    rewrite ?Ht; try reflexivity;
    destruct (has_key tg "p_stklimit"); cbn -[Z.sub];
    try (case_bool_decide; cbn -[Z.sub];
         unfold inf_read_memory; cbn -[Z.sub];
         try destruct (read_memory tg _ _); cbn -[Z.sub]);
    rewrite ?Hnm; cbn -[Z.sub]; repeat case_bool_decide; reflexivity.
Qed.

(** X3. A struct that cannot be read is noticed where its memory is first
    needed. With [p_ctx] in the type, the constructor raises
    gdb.MemoryError before any raw read when the type has [p_stklimit]
    (at the comparison with 0) or [p_name] (at the conversion to a
    string), and gdb's no-such-member error for [p_name] when the type has
    neither. A name that cannot be read makes it raise gdb.MemoryError as
    well: only the error of the stack scan is absorbed. *)
Theorem unreadable_memory_raises tg a :
  has_key tg "p_ctx" →
  (threads tg !! a = None →
   (has_key tg "p_stklimit" ∨ has_key tg "p_name" →
    ChibiosThread_init tg a = ([], Raise MemoryError)) ∧
   (¬ has_key tg "p_stklimit" → ¬ has_key tg "p_name" →
    ChibiosThread_init tg a = ([], Raise (gdb_error "p_name")))) ∧
  (∀ t, threads tg !! a = Some t → has_key tg "p_name" → p_name t = None →
        (ChibiosThread_init tg a).2 = Raise MemoryError).
Proof.
  intros Hctx%Is_true_true. split.
  - intros Ht.
    unfold ChibiosThread_init, getitem, member, fetch. rewrite Hctx, Ht.
    destruct (has_key tg "p_stklimit"), (has_key tg "p_name");
      (split; [intros [H|H]|intros H1 H2]);
      first [reflexivity | destruct H; exact I
            | destruct H1; exact I | destruct H2; exact I].
  - intros t Ht Hname%Is_true_true Hnm.
    unfold ChibiosThread_init, getitem, member, fetch.
    rewrite Hctx, Hname, Ht.
    destruct (has_key tg "p_stklimit"); cbn -[Z.sub];
      try (case_bool_decide; cbn -[Z.sub];
           unfold inf_read_memory; cbn -[Z.sub];
           try destruct (read_memory tg _ _); cbn -[Z.sub]);
      rewrite ?Hnm; reflexivity.
Qed.

(** X4. An empty name becomes "<no name>"; a name that is not empty is kept
    as it is. *)
Theorem name_is_normalised tg a t nm :
  readable tg a t nm →
  ∃ tr ch,
    ChibiosThread_init tg a = (tr, Ok ch) ∧
    (nm = "" → name ch = "<no name>") ∧
    (nm ≠ "" → name ch = nm).
Proof.
  intros Hr. rewrite (ChibiosThread_init_readable tg a t nm Hr). cbn zeta.
  eexists _, _. split; [reflexivity|]. unfold name. cbn [_name].
  split.
  - intros ->. reflexivity.
  - intros Hne. destruct nm; [contradiction|reflexivity].
Qed.

(** X5. The scheduled time is the [p_time] member when the [Thread] type
    has one, and 0 when it has none. *)
Theorem time_defaults_to_zero tg a t nm :
  readable tg a t nm →
  ∃ tr ch,
    ChibiosThread_init tg a = (tr, Ok ch) ∧
    (has_key tg "p_time" → time ch = p_time t) ∧
    (¬ has_key tg "p_time" → time ch = 0).
Proof.
  intros Hr. rewrite (ChibiosThread_init_readable tg a t nm Hr). cbn zeta.
  eexists _, _. split; [reflexivity|]. unfold time. cbn [_time].
  destruct (has_key tg "p_time"); split; intros H;
    first [reflexivity | destruct H; exact I].
Qed.

(** ** The raw reads of an extraction *)

Lemma reads_bind {A B} (m : M A) (f : A → M B) :
  reads (m ≫= f).1 =
  reads m.1 ++ match m.2 with Ok a => reads (f a).1 | Raise _ => [] end.
Proof.
  destruct m as [tr [a|e]]; cbn [mbind M_bind fst snd].
  - destruct (f a) as [tr' r]. cbn [fst]. apply reads_app.
  - now rewrite app_nil_r.
Qed.

Lemma silent_bind {A B} (m : M A) (f : A → M B) :
  silent m → (∀ a, silent (f a)) → silent (m ≫= f).
Proof.
  unfold silent. intros Hm Hf. rewrite reads_bind, Hm.
  destruct m.2; [apply Hf|reflexivity].
Qed.

Lemma silent_mret {A} (a : A) : silent (mret a : M A).
Proof. reflexivity. Qed.

Lemma silent_getitem {A} tg a key (member : Thread → A) :
  silent (getitem tg a key member).
Proof.
  unfold getitem. destruct (has_key tg key); [|reflexivity].
  destruct (threads tg !! a); reflexivity.
Qed.

Lemma silent_string_ v : silent (string_ v).
Proof. destruct v; reflexivity. Qed.

Lemma silent_member tg key : silent (member tg key).
Proof. unfold member. destruct (has_key tg key); reflexivity. Qed.

Lemma silent_fetch {A} tg a (field : Thread → A) : silent (fetch tg a field).
Proof. unfold fetch. destruct (threads tg !! a); reflexivity. Qed.

Ltac silent_step :=
  match goal with
  | |- silent (if ?b then _ else _) => destruct b
  | |- silent (_ ≫= _) => apply silent_bind; [|intros ?]
  | |- silent (getitem _ _ _ _) => apply silent_getitem
  | |- silent (string_ _) => apply silent_string_
  | |- silent (member _ _) => apply silent_member
  | |- silent (fetch _ _ _) => apply silent_fetch
  | |- silent (mret _) => apply silent_mret
  end.

(** The part of a computation that is left reads nothing. *)
Ltac silent_rest :=
  match goal with
  | |- context [reads (?m ≫= ?f).1] =>
      let H := fresh in
      assert (H : silent (m ≫= f)) by (repeat silent_step);
      unfold silent in H; rewrite H; clear H
  end.

(** The raw reads of the constructor, in one piece. *)
Lemma reads_ChibiosThread_init tg a :
  reads (ChibiosThread_init tg a).1 =
  match threads tg !! a with
  | Some t =>
      if has_key tg "p_ctx" && has_key tg "p_stklimit" &&
         bool_decide (p_stklimit t > 0)
      then [(p_stklimit t, p_ctx_r13 t - p_stklimit t)] else []
  | None => []
  end.
Proof.
  unfold ChibiosThread_init. rewrite reads_bind, silent_member.
  unfold member at 1.
  destruct (has_key tg "p_ctx"); cbn [andb snd raise mret M_ret app];
    [|now destruct (threads tg !! a)].
  rewrite reads_bind.
  destruct (has_key tg "p_stklimit") eqn:Hk; cbn [andb].
  - destruct (threads tg !! a) as [t|] eqn:Ht.
    + rewrite (getitem_ok tg a "p_stklimit" p_stklimit t)
        by (rewrite ?Hk; first [exact I | exact Ht]).
      cbn [fst snd]. rewrite reads_bind.
      case_bool_decide as Hpos.
      * unfold fetch at 1 2. rewrite Ht. cbn [mbind M_bind mret M_ret].
        unfold inf_read_memory, try_except_MemoryError.
        destruct (read_memory tg _ _); cbn -[Z.sub reads].
        all: silent_rest; reflexivity.
      * cbn -[Z.sub reads]. silent_rest. reflexivity.
    + unfold getitem at 1 2. now rewrite Hk, Ht.
  - cbn [fst snd mret M_ret]. rewrite reads_bind.
    rewrite bool_decide_eq_false_2 by lia.
    cbn -[Z.sub reads]. silent_rest. now destruct (threads tg !! a).
Qed.

(** X6. Extraction reads raw memory at most once, and exactly when the
    struct can be read and the [Thread] type has [p_ctx] and a [p_stklimit]
    whose value is positive; the read then starts at the stack limit and
    asks for [r13 - stklimit] bytes. Extraction prints nothing. *)
Theorem extraction_reads_only_the_stack tg a :
  (∀ addr len,
     (addr, len) ∈ reads (ChibiosThread_init tg a).1 ↔
     has_key tg "p_ctx" ∧ has_key tg "p_stklimit" ∧
     ∃ t, threads tg !! a = Some t ∧ p_stklimit t > 0 ∧
          addr = p_stklimit t ∧ len = p_ctx_r13 t - p_stklimit t) ∧
  (length (reads (ChibiosThread_init tg a).1) ≤ 1)%nat ∧
  printed (ChibiosThread_init tg a).1 = [].
Proof.
  rewrite reads_ChibiosThread_init.
  split; [|split; [|apply quiet_ChibiosThread_init]].
  - intros addr len. split.
    + intros Hin.
      destruct (threads tg !! a) as [t|]; [|now apply elem_of_nil in Hin].
      destruct (has_key tg "p_ctx"), (has_key tg "p_stklimit");
        cbn [andb] in Hin; try (now apply elem_of_nil in Hin).
      case_bool_decide; [|now apply elem_of_nil in Hin].
      apply list_elem_of_singleton in Hin. injection Hin as -> ->.
      repeat split; try exact I. exists t. repeat split. assumption.
    + intros (Hc%Is_true_true & Hs%Is_true_true & t & Ht & Hpos & -> & ->).
      rewrite Ht, Hc, Hs. cbn [andb].
      rewrite bool_decide_eq_true_2 by assumption.
      now apply list_elem_of_singleton.
  - destruct (threads tg !! a) as [t|]; [|simpl; lia].
    destruct (_ && _ && _); simpl; lia.
Qed.

(** ** The fill scan, read backwards *)

Lemma first_non_fill_Some k stack m :
  first_non_fill k stack = Some m →
  ∃ (i : nat) b,
    m = (k + i)%nat ∧ stack !! i = Some b ∧ b ≠ fill_byte ∧
    ∀ j, (j < i)%nat → stack !! j = Some fill_byte.
Proof.
  revert k. induction stack as [|each rest IH]; intros k; [discriminate|].
  simpl. destruct (Byte.eqb each fill_byte) eqn:E; simpl.
  - apply eqb_fill_byte in E as ->. intros H.
    destruct (IH _ H) as (i & b & -> & Hi & Hb & Hlow).
    exists (S i), b. split; [lia|]. split; [exact Hi|]. split; [exact Hb|].
    intros [|j] Hj; [reflexivity|]. apply Hlow. lia.
  - intros [= <-]. exists 0%nat, each. split; [lia|].
    split; [reflexivity|]. split; [|intros j Hj; lia].
    intros ->. discriminate E.
Qed.

(** X7. What the scan reports is sound: the result is never negative, every
    byte below the reported index is the fill byte, a positive result is
    the index of a byte that is not the fill byte, and on a region that is
    not empty the result is below the length of the region. *)
Theorem scan_stack_sound stack :
  0 ≤ scan_stack stack ∧
  (∀ j : nat, Z.of_nat j < scan_stack stack → stack !! j = Some fill_byte) ∧
  (0 < scan_stack stack →
   ∃ b, stack !! Z.to_nat (scan_stack stack) = Some b ∧ b ≠ fill_byte) ∧
  (stack ≠ [] → scan_stack stack < Z.of_nat (length stack)).
Proof.
  unfold scan_stack.
  destruct (first_non_fill 0 stack) as [m|] eqn:E.
  - destruct (first_non_fill_Some _ _ _ E) as (i & b & -> & Hi & Hb & Hlow).
    simpl. split; [lia|]. split; [intros j Hj; apply Hlow; lia|].
    split; [intros _; exists b; now rewrite Nat2Z.id|].
    intros _. apply lookup_lt_Some in Hi. lia.
  - split; [lia|]. split; [intros j Hj; lia|]. split; [lia|].
    intros Hne. destruct stack; [contradiction|simpl; lia].
Qed.

(** X8. With a positive stack limit the thread reports the limit, the saved
    stack pointer and their difference as the size, whether or not the
    region could be read; and when gdb hands back as many bytes as were
    asked for, or the read fails, the unused count lies between 0 and the
    size. *)
Theorem stack_columns_are_consistent tg a t nm :
  readable tg a t nm →
  has_key tg "p_stklimit" →
  p_stklimit t > 0 →
  ∃ tr ch,
    ChibiosThread_init tg a = (tr, Ok ch) ∧
    stack_limit ch = p_stklimit t ∧
    stack_start ch = p_ctx_r13 t ∧
    stack_size ch = stack_start ch - stack_limit ch ∧
    (read_memory tg (stack_limit ch) (stack_size ch) = None →
     stack_unused ch = 0) ∧
    (∀ stack,
       read_memory tg (stack_limit ch) (stack_size ch) = Some stack →
       Z.of_nat (length stack) = stack_size ch →
       0 ≤ stack_unused ch ≤ stack_size ch ∧
       (0 < stack_size ch → stack_unused ch < stack_size ch)).
Proof.
  intros Hr Hkey%Is_true_true Hpos.
  rewrite (ChibiosThread_init_readable tg a t nm Hr), Hkey. cbn zeta.
  rewrite bool_decide_eq_true_2 by exact Hpos.
  eexists _, _. split; [reflexivity|].
  unfold stack_limit, stack_start, stack_size, stack_unused.
  cbn [_stklimit _r13 _stack_size _stack_unused].
  do 3 (split; [reflexivity|]). split; [intros ->; reflexivity|].
  intros stack -> Hlen.
  destruct (scan_stack_sound stack) as (Hge & _ & _ & Hlt).
  destruct stack as [|b stack].
  - change (scan_stack []) with 0. simpl in Hlen. lia.
  - specialize (Hlt ltac:(discriminate)). lia.
Qed.

(** ** Formatting a row *)

(** X9. Formatting the row of a thread succeeds exactly when its state
    ordinal lies in -15 .. 14; the row then shows the address, the stack
    limit, the saved stack pointer, the unused count, the size and the name
    of the thread as they were extracted. Outside that range it raises
    IndexError and there is no row. *)
Theorem row_formats_iff_state_indexes_table ch :
  (-15 ≤ state ch < 15 →
   ∃ s, state_str ch = Ok s ∧
        THREAD_INFO_FORMAT_format ch =
          ([], Ok {| col_Address := address ch;
                     col_StkLimit := stack_limit ch;
                     col_Stack := stack_start ch;
                     col_Free := stack_unused ch;
                     col_Total := stack_size ch;
                     col_Name := name ch;
                     col_State := s |})) ∧
  (¬ -15 ≤ state ch < 15 →
   THREAD_INFO_FORMAT_format ch = ([], Raise IndexError)) ∧
  ((∃ row, (THREAD_INFO_FORMAT_format ch).2 = Ok row) ↔ -15 ≤ state ch < 15).
Proof.
  assert (Hin : -15 ≤ state ch < 15 → ∃ s, state_str ch = Ok s).
  { intros Hs. unfold state_str.
    destruct (Z_lt_dec (state ch) 0).
    - destruct (py_getitem_negative THREAD_STATE (state ch)) as (s & _ & H);
        [simpl; lia|eauto].
    - destruct (py_getitem_nonneg THREAD_STATE (state ch)) as (s & _ & H);
        [simpl; lia|eauto]. }
  assert (Hout : ¬ -15 ≤ state ch < 15 → state_str ch = Raise IndexError).
  { intros Hs. unfold state_str. apply py_getitem_out_of_range. simpl. lia. }
  unfold THREAD_INFO_FORMAT_format.
  split; [|split; [|split]].
  - intros Hs. destruct (Hin Hs) as [s H]. exists s. now rewrite H.
  - intros Hs. now rewrite (Hout Hs).
  - intros [row H]. destruct (decide (-15 ≤ state ch < 15)) as [|Hs]; [assumption|].
    rewrite (Hout Hs) in H. discriminate.
  - intros Hs. destruct (Hin Hs) as [s H]. rewrite H. eexists. reflexivity.
Qed.

(** ** chibios thread *)

Lemma state_str_in_range ch :
  -15 ≤ state ch < 15 → ∃ s, state_str ch = Ok s.
Proof.
  intros Hs. unfold state_str.
  destruct (Z_lt_dec (state ch) 0).
  - destruct (py_getitem_negative THREAD_STATE (state ch)) as (s & _ & H);
      [simpl; lia|eauto].
  - destruct (py_getitem_nonneg THREAD_STATE (state ch)) as (s & _ & H);
      [simpl; lia|eauto].
Qed.

Lemma thread_row_readable tg a t nm :
  readable tg a t nm → -15 ≤ p_state t < 15 →
  ∃ row, thread_row tg a = Ok row ∧ col_Address row = a.
Proof.
  intros Hr Hs.
  destruct (init_summary tg a t nm Hr) as (tr & ch & Hinit & _ & _ & Hst & Ha).
  destruct (state_str_in_range ch) as [s Hstr]; [now rewrite Hst|].
  unfold thread_row. rewrite Hinit. cbn [mbind M_bind].
  unfold THREAD_INFO_FORMAT_format. rewrite Hstr. cbn.
  eexists. split; [reflexivity|exact Ha].
Qed.

(** The command on a selected thread: the header, then the row or the
    error of [thread_row]. *)
Lemma thread_command_selected tg tid tr res :
  ChibiosThreadCommand_invoke tg (Some tid) = (tr, res) →
  match thread_row tg tid with
  | Ok row =>
      printed tr = [Print THREAD_INFO_HEADER_FORMAT; PrintRow row] ∧
      res = Ok ()
  | Raise e => printed tr = [Print THREAD_INFO_HEADER_FORMAT] ∧ res = Raise e
  end.
Proof.
  unfold ChibiosThreadCommand_invoke, thread_row. cbn zeta.
  pose proof (quiet_ChibiosThread_init tg tid) as Hq0.
  destruct (ChibiosThread_init tg tid) as [tr0 [ch|e]];
    unfold quiet in Hq0; cbn [fst snd mbind M_bind emit] in *.
  - pose proof (quiet_THREAD_INFO_FORMAT_format ch) as Hqf.
    destruct (THREAD_INFO_FORMAT_format ch) as [trf [row|e]];
      unfold quiet in Hqf; cbn [fst snd mbind M_bind emit] in *;
      intros [= <- <-];
      change (printed (Print THREAD_INFO_HEADER_FORMAT :: ?l))
        with (Print THREAD_INFO_HEADER_FORMAT :: printed l);
      rewrite !printed_app, Hq0, Hqf; now split.
  - intros [= <- <-].
    change (printed (Print THREAD_INFO_HEADER_FORMAT :: ?l))
      with (Print THREAD_INFO_HEADER_FORMAT :: printed l).
    rewrite Hq0. now split.
Qed.

(** X10. The thread command prints the one line "No threads found--run info
    threads first" and ends normally, without reading anything, when no
    thread is selected. With a thread selected it prints the header first
    and then the row of that thread; when the extraction or the formatting
    of the row fails the header has been printed already and the error
    follows it. *)
Theorem thread_command_output tg selected_thread :
  ∃ tr res,
    ChibiosThreadCommand_invoke tg selected_thread = (tr, res) ∧
    match selected_thread with
    | None => tr = [Print no_threads_found] ∧ res = Ok ()
    | Some tid =>
        match thread_row tg tid with
        | Ok row =>
            printed tr = [Print THREAD_INFO_HEADER_FORMAT; PrintRow row] ∧
            res = Ok ()
        | Raise e =>
            printed tr = [Print THREAD_INFO_HEADER_FORMAT] ∧ res = Raise e
        end
    end.
Proof.
  destruct (ChibiosThreadCommand_invoke tg selected_thread) as [tr res] eqn:H.
  exists tr, res. split; [reflexivity|].
  destruct selected_thread as [tid|].
  - exact (thread_command_selected tg tid tr res H).
  - cbn in H. injection H as <- <-. now split.
Qed.

(** X11. The thread command does not need the registry: whatever link
    members the [Thread] type has or lacks, a selected thread that can be
    read and whose state ordinal indexes the table gets the header and its
    row, with its own address. *)
Theorem thread_command_needs_no_registry tg tid t nm :
  readable tg tid t nm → -15 ≤ p_state t < 15 →
  ∃ tr row,
    ChibiosThreadCommand_invoke tg (Some tid) = (tr, Ok ()) ∧
    printed tr = [Print THREAD_INFO_HEADER_FORMAT; PrintRow row] ∧
    col_Address row = tid.
Proof.
  intros Hr Hs.
  destruct (thread_row_readable tg tid t nm Hr Hs) as (row & Hrow & Ha).
  destruct (ChibiosThreadCommand_invoke tg (Some tid)) as [tr res] eqn:H.
  pose proof (thread_command_selected tg tid tr res H) as Hsel.
  rewrite Hrow in Hsel. destruct Hsel as [Hpr ->].
  exists tr, row. repeat split; assumption.
Qed.

(** X12. The two commands agree: for a thread of a well-formed registry,
    the row the thread command prints is the row the threads command
    prints for it. *)
Theorem thread_command_agrees_with_walk tg ns a :
  well_typed tg → registry tg ns → Forall (live_thread tg) ns →
  a ∈ ns →
  ∃ trw tr row,
    (∀ fuel, (length ns < fuel)%nat → invoke fuel tg = Some (trw, Ok ())) ∧
    row ∈ rows trw ∧ col_Address row = a ∧
    ChibiosThreadCommand_invoke tg (Some a) = (tr, Ok ()) ∧
    printed tr = [Print THREAD_INFO_HEADER_FORMAT; PrintRow row].
Proof.
  intros Hty Hreg Hlive Ha.
  destruct (invoke_registry tg ns Hty Hreg Hlive)
    as (trw & Hinv & _ & Hrows & Haddr).
  apply list_elem_of_lookup in Ha as [i Hi].
  destruct (Forall2_lookup_l _ _ _ _ _ Hrows Hi) as (row & Hri & Hrow).
  destruct (ChibiosThreadCommand_invoke tg (Some a)) as [tr res] eqn:H.
  pose proof (thread_command_selected tg a tr res H) as Hsel.
  rewrite Hrow in Hsel. destruct Hsel as [Hpr ->].
  exists trw, tr, row. split; [exact Hinv|].
  split; [apply list_elem_of_lookup; eauto|].
  split; [|split; [reflexivity|exact Hpr]].
  assert (Hc : (col_Address <$> rows trw) !! i = Some (col_Address row))
    by (now rewrite list_lookup_fmap, Hri).
  rewrite Haddr, Hi in Hc. now injection Hc.
Qed.

(** ** More on the registry walk *)

(** X13. When the [Thread] type lacks one of the link members the threads
    command does nothing but raise the registry-not-enabled error: nothing
    is printed, no memory is read, and no turn of the loop is needed. *)
Theorem invoke_refuses_without_links tg fuel :
  ¬ has_key tg "p_newer" ∨ ¬ has_key tg "p_older" →
  invoke fuel tg = Some ([], Raise (GdbError registry_not_enabled)).
Proof.
  intros Hno. unfold invoke, sanity_check.
  destruct (has_key tg "p_newer"), (has_key tg "p_older"); cbn;
    try reflexivity.
  destruct Hno as [H|H]; destruct H; exact I.
Qed.

(** The command along consistently linked threads [ns], reached from the
    anchor, up to the node [c] after them. Nothing is asked of the older
    pointer of the first thread. *)
Lemma invoke_along tg ns c t0 :
  well_typed tg →
  threads tg !! rlist tg = Some t0 → p_newer t0 = hd c ns →
  adjacent tg (ns ++ [c]) →
  Forall (live_thread tg) ns →
  Forall (λ n, n ≠ rlist tg) ns →
  ∃ tr,
    printed tr =
      advisories tg ++ Print THREAD_INFO_HEADER_FORMAT :: (PrintRow <$> rows tr) ∧
    Forall2 (λ a r, thread_row tg a = Ok r) ns (rows tr) ∧
    col_Address <$> rows tr = ns ∧
    ∀ fuel,
      invoke (length ns + fuel) tg = after tr (walk fuel tg (rlist tg) c).
Proof.
  intros Hty Ht0 Hfirst Hadj Hlive Hne.
  destruct (walk_adjacent tg Hty ns c Hadj Hlive Hne)
    as (tr & Hpr & Hrows & Haddr & Hwalk).
  exists ((advisories tg ++ [Print THREAD_INFO_HEADER_FORMAT]) ++ tr).
  destruct (advisories_printed tg) as [Hadv1 Hadv2].
  rewrite !printed_app, !rows_app, Hadv1, Hadv2, Hpr.
  cbn [printed rows omap list_omap app].
  split; [now rewrite <- app_assoc|]. split; [exact Hrows|].
  split; [exact Haddr|].
  intros fuel. destruct Hty as (Hn & Ho & _).
  rewrite (invoke_well_typed tg t0 _ Hn Ho Ht0), Hfirst, Hwalk.
  apply after_after.
Qed.

(** X14. The older pointer of the first thread reached is never looked at:
    when the anchor leads to the first of the threads [ns], these are live
    and consistently linked among themselves and back to the anchor, the
    command prints all their rows and ends normally, whatever that first
    older pointer holds. *)
Theorem first_back_link_is_not_checked tg ns t0 :
  well_typed tg →
  threads tg !! rlist tg = Some t0 → p_newer t0 = hd (rlist tg) ns →
  adjacent tg (ns ++ [rlist tg]) →
  Forall (live_thread tg) ns →
  Forall (λ n, n ≠ rlist tg) ns →
  ∃ tr,
    (∀ fuel, (length ns < fuel)%nat → invoke fuel tg = Some (tr, Ok ())) ∧
    col_Address <$> rows tr = ns.
Proof.
  intros Hty Ht0 Hfirst Hadj Hlive Hne.
  destruct (invoke_along tg ns _ t0 Hty Ht0 Hfirst Hadj Hlive Hne)
    as (tr & _ & _ & Haddr & Hinv).
  exists tr. split; [|exact Haddr].
  intros fuel Hfuel.
  replace fuel with (length ns + S (fuel - S (length ns)))%nat by lia.
  rewrite Hinv. cbn [walk].
  rewrite bool_decide_eq_false_2 by (intros H; now apply H).
  cbn. now rewrite app_nil_r.
Qed.

(** X15. A newer pointer that leads to memory that cannot be read stops the
    walk with gdb.MemoryError, after the rows of all the threads up to and
    with the one holding that pointer. *)
Theorem dangling_newer_aborts tg ns l bad t0 :
  well_typed tg →
  threads tg !! rlist tg = Some t0 → p_newer t0 = hd l ns →
  adjacent tg (ns ++ [l]) →
  Forall (live_thread tg) (ns ++ [l]) →
  Forall (λ n, n ≠ rlist tg) (ns ++ [l]) →
  newer_of tg l = Some bad →
  threads tg !! bad = None →
  ∃ tr,
    (∀ fuel, (length ns < fuel)%nat →
       invoke fuel tg = Some (tr, Raise MemoryError)) ∧
    col_Address <$> rows tr = ns ++ [l].
Proof.
  intros Hty Ht0 Hfirst Hadj Hlive Hne Hnw Hbad.
  apply Forall_app in Hne as [Hne Hlne]. apply Forall_cons in Hlne as [Hlne _].
  apply Forall_app in Hlive as [Hlive Hl]. apply Forall_cons in Hl as [Hl _].
  destruct (invoke_along tg ns l t0 Hty Ht0 Hfirst Hadj Hlive Hne)
    as (tr & _ & _ & Haddr & Hinv).
  destruct (walk_body_live tg l bad Hty Hl Hnw)
    as (trl & r & _ & Hrowsl & _ & Haddrl & Hbody).
  unfold older_of in Hbody. rewrite Hbad in Hbody. cbn in Hbody.
  exists (tr ++ trl). split.
  - intros fuel Hfuel.
    replace fuel with (length ns + S (fuel - S (length ns)))%nat by lia.
    now rewrite Hinv, (walk_raise tg _ l trl _ Hlne Hbody).
  - rewrite rows_app, fmap_app, Haddr, Hrowsl. cbn. now rewrite Haddrl.
Qed.

Lemma walk_body_bad_state tg c t nm :
  readable tg c t nm → ¬ -15 ≤ p_state t < 15 →
  ∃ tr, walk_body tg c = (tr, Raise IndexError) ∧ printed tr = [].
Proof.
  intros Hr Hs.
  destruct (init_summary tg c t nm Hr) as (tr & ch & Hinit & Hpr & _ & Hst & _).
  exists tr. split; [|exact Hpr].
  unfold walk_body. rewrite Hinit. cbn [mbind M_bind].
  unfold THREAD_INFO_FORMAT_format, state_str. rewrite Hst.
  rewrite py_getitem_out_of_range by (simpl; lia).
  cbn. now rewrite app_nil_r.
Qed.

(** X16. A thread whose state ordinal is outside -15 .. 14 stops the walk
    with IndexError when its row is to be formatted: the rows of the
    threads before it are printed, its own is not, and no thread after it
    is visited. *)
Theorem bad_state_aborts_walk tg ns c t nm t0 :
  well_typed tg →
  threads tg !! rlist tg = Some t0 → p_newer t0 = hd c ns →
  adjacent tg (ns ++ [c]) →
  Forall (live_thread tg) ns →
  Forall (λ n, n ≠ rlist tg) ns →
  c ≠ rlist tg →
  threads tg !! c = Some t → p_name t = Some nm →
  ¬ -15 ≤ p_state t < 15 →
  ∃ tr,
    (∀ fuel, (length ns < fuel)%nat →
       invoke fuel tg = Some (tr, Raise IndexError)) ∧
    col_Address <$> rows tr = ns.
Proof.
  intros Hty Ht0 Hfirst Hadj Hlive Hne Hc Ht Hnm Hs.
  destruct (invoke_along tg ns c t0 Hty Ht0 Hfirst Hadj Hlive Hne)
    as (tr & _ & _ & Haddr & Hinv).
  assert (Hr : readable tg c t nm).
  { destruct Hty as (_ & _ & Hkeys). repeat split; assumption. }
  destruct (walk_body_bad_state tg c t nm Hr Hs) as (trc & Hbody & Hprc).
  exists (tr ++ trc). split.
  - intros fuel Hfuel.
    replace fuel with (length ns + S (fuel - S (length ns)))%nat by lia.
    now rewrite Hinv, (walk_raise tg _ c trc _ Hc Hbody).
  - now rewrite rows_app, (printed_nil_rows _ Hprc), app_nil_r.
Qed.

Lemma walk_in_loop tg loop :
  well_typed tg → anchor_free_loop tg loop →
  ∀ fuel c, c ∈ loop → walk fuel tg (rlist tg) c = None.
Proof.
  intros Hty Hloop fuel. induction fuel as [|fuel IH]; intros c Hc.
  - reflexivity.
  - destruct (Hloop c Hc) as (Hne & Hlive & n & Hn & Hnw & Hol).
    destruct (walk_body_live tg c n Hty Hlive Hnw)
      as (tr & r & _ & _ & _ & _ & Hbody).
    rewrite Hol, bool_decide_eq_false_2 in Hbody by (intros H; now apply H).
    now rewrite (walk_step tg fuel c tr n Hne Hbody), (IH n Hn).
Qed.

(** X17. The walk has no bound of its own: when the anchor leads into live
    threads that are consistently linked among themselves in a loop that
    does not hold the anchor, the command does not return, however many
    turns of the loop it is given. *)
Theorem walk_never_returns_from_anchor_free_loop tg loop t0 :
  well_typed tg → anchor_free_loop tg loop →
  threads tg !! rlist tg = Some t0 → p_newer t0 ∈ loop →
  ∀ fuel, invoke fuel tg = None.
Proof.
  intros Hty Hloop Ht0 Hin fuel.
  pose proof Hty as (Hn & Ho & _).
  rewrite (invoke_well_typed tg t0 fuel Hn Ho Ht0).
  now rewrite (walk_in_loop tg loop Hty Hloop fuel _ Hin).
Qed.

(** One turn of the loop that goes on has printed the row of the thread,
    and the link it followed is consistent. *)
Lemma walk_body_Ok_inv tg a tr n :
  walk_body tg a = (tr, Ok n) →
  (∃ row, thread_row tg a = Ok row ∧ col_Address row = a ∧
          printed tr = [PrintRow row]) ∧
  consistent tg a n.
Proof.
  intros Hbody. split.
  - destruct (walk_body_shape tg a tr _ Hbody)
      as [(_ & e & [=])|(row & n' & Hrow & Ha & Hpr & _)].
    exists row. repeat split; assumption.
  - assert (H : (walk_body tg a).2 = Ok n) by now rewrite Hbody.
    unfold walk_body in H.
    apply bind_Ok_inv in H as (ch & _ & H).
    apply bind_Ok_inv in H as (row & _ & H).
    apply bind_Ok_inv in H as (u & _ & H).
    apply bind_Ok_inv in H as (n' & (t & Ht & ->)%getitem_Ok_inv & H).
    apply bind_Ok_inv in H as (o & (t' & Ht' & ->)%getitem_Ok_inv & H).
    case_bool_decide as Ho; [discriminate|]. cbn in H. injection H as <-.
    try apply dec_stable in Ho.
    unfold consistent, newer_of, older_of. rewrite Ht, Ht'. cbn.
    split; [reflexivity|now rewrite Ho].
Qed.

Lemma walk_Ok_adjacent tg fuel :
  ∀ c tr,
    walk fuel tg (rlist tg) c = Some (tr, Ok ()) →
    hd (rlist tg) (col_Address <$> rows tr) = c ∧
    adjacent tg ((col_Address <$> rows tr) ++ [rlist tg]) ∧
    Forall (λ n, n ≠ rlist tg) (col_Address <$> rows tr) ∧
    Forall2 (λ a r, thread_row tg a = Ok r) (col_Address <$> rows tr) (rows tr).
Proof.
  induction fuel as [|fuel IH]; intros c tr Hwalk; [discriminate|].
  cbn [walk] in Hwalk. case_bool_decide as Hc.
  - destruct (walk_body tg c) as [tr1 [next|e]] eqn:Hbody;
      cbn [and_then] in Hwalk; [|discriminate].
    destruct (walk fuel tg (rlist tg) next) as [[tr2 res2]|] eqn:Hrest;
      [|discriminate].
    injection Hwalk as <- ->.
    destruct (walk_body_Ok_inv tg c tr1 next Hbody)
      as [(row & Hrow & Ha & Hpr) Hcons].
    destruct (IH next tr2 Hrest) as (Hhd & Hadj & Hne & Hrows).
    rewrite rows_app, (printed_nil_rows_one _ _ Hpr).
    cbn [app fmap list_fmap hd]. rewrite Ha.
    split; [reflexivity|]. split; [|split; constructor; assumption].
    cbn [adjacent app]. split; [|exact Hadj].
    destruct (col_Address <$> rows tr2) as [|b l]; cbn in *;
      now rewrite Hhd.
  - injection Hwalk as <-. try apply dec_stable in Hc.
    cbn. repeat split; first [now symmetry | constructor].
Qed.

(** X18. A normal end vouches for the links: when the threads command ends
    normally, the threads whose rows it printed start at the newer of the
    anchor, none of them is the anchor, and every link between them, and
    from the last of them back to the anchor, is consistent in both
    directions; each row is the row of its thread. *)
Theorem normal_end_vouches_for_links tg fuel tr :
  invoke fuel tg = Some (tr, Ok ()) →
  ∃ t0,
    threads tg !! rlist tg = Some t0 ∧
    p_newer t0 = hd (rlist tg) (col_Address <$> rows tr) ∧
    adjacent tg ((col_Address <$> rows tr) ++ [rlist tg]) ∧
    Forall (λ n, n ≠ rlist tg) (col_Address <$> rows tr) ∧
    Forall2 (λ a r, thread_row tg a = Ok r) (col_Address <$> rows tr) (rows tr).
Proof.
  intros Hinv.
  destruct (has_key tg "p_newer") eqn:Hn;
    [destruct (has_key tg "p_older") eqn:Ho|].
  - apply Is_true_true in Hn, Ho.
    destruct (threads tg !! rlist tg) as [t0|] eqn:Ht0.
    + rewrite (invoke_well_typed tg t0 fuel Hn Ho Ht0) in Hinv.
      destruct (walk fuel tg (rlist tg) (p_newer t0)) as [[tr2 res2]|] eqn:Hwalk;
        [|discriminate].
      injection Hinv as <- ->.
      destruct (walk_Ok_adjacent tg fuel _ _ Hwalk) as (Hhd & Hadj & Hne & Hrows).
      destruct (advisories_printed tg) as [_ Hadv].
      exists t0. rewrite !rows_app, Hadv. cbn [rows omap list_omap app].
      repeat split; first [assumption | now symmetry].
    + unfold invoke in Hinv. rewrite (sanity_check_links tg Hn Ho) in Hinv.
      unfold member, fetch in Hinv. rewrite Ht0 in Hinv.
      apply Is_true_true in Hn, Ho. rewrite Hn, Ho in Hinv. discriminate.
  - unfold invoke, sanity_check in Hinv. rewrite Hn, Ho in Hinv. discriminate.
  - unfold invoke, sanity_check in Hinv. rewrite Hn in Hinv. discriminate.
Qed.

(** * The properties at the sample targets *)

(** Facts about a sample target hold by evaluation. *)
Ltac sample_leaf :=
  vm_compute;
  repeat first
    [discriminate | exact I | reflexivity | intros ?; assumption | econstructor].
Ltac sample :=
  repeat match goal with
    | |- Forall _ [] => apply Forall_nil
    | |- Forall _ (_ :: _) => apply Forall_cons
    | |- Forall _ (_ ++ _) => apply Forall_app
    | |- _ ∧ _ => split
    | |- _ => progress unfold registry, well_typed, readable
    end;
  sample_leaf.

Lemma walk_visits_each_thread_once_ring3 :
  ∃ tr,
    invoke 4 Sample.ring3 = Some (tr, Ok ()) ∧
    col_Address <$> rows tr = [512; 768; 1024] ∧
    length (rows tr) = 3%nat.
Proof.
  destruct (walk_visits_each_thread_once Sample.ring3 [512; 768; 1024]
              ltac:(sample) ltac:(sample) ltac:(sample))
    as (tr & Hinv & Hlen & Haddr & _).
  exists tr. split; [apply Hinv; simpl; lia|]. split; assumption.
Defined.

(** Against C2 as stated: a wrong older pointer in the first thread reached
    goes unnoticed, and the error for a mismatch at the second node and at
    the third is the same message, which names neither. *)
Lemma corruption_error_names_no_node :
  ∃ tr1 tr2 tr3 e,
    invoke 9 Sample.broken_at_1 = Some (tr1, Ok ()) ∧
    length (rows tr1) = 3%nat ∧
    invoke 9 Sample.broken_at_2 = Some (tr2, Raise e) ∧
    length (rows tr2) = 1%nat ∧
    invoke 9 Sample.broken_at_3 = Some (tr3, Raise e) ∧
    length (rows tr3) = 2%nat ∧
    e = GdbError "Rlist pointer invalid--corrupt list?".
Proof. do 4 eexists. repeat split; vm_compute; reflexivity. Qed.

Lemma broken_back_link_aborts_at_3 :
  ∃ tr,
    invoke 2 Sample.broken_at_3 =
      Some (tr, Raise (GdbError rlist_pointer_invalid)) ∧
    col_Address <$> rows tr = [512; 768].
Proof.
  destruct (broken_back_link_aborts Sample.broken_at_3 [512] 768 1024 512
              ltac:(sample) ltac:(sample) ltac:(sample) ltac:(sample)
              ltac:(sample) ltac:(sample) ltac:(sample))
    as (tr & Hinv & _ & Haddr & _).
  exists tr. split; [apply Hinv; simpl; lia|exact Haddr].
Defined.

Lemma stack_unused_of_main :
  ∃ tr ch,
    ChibiosThread_init Sample.ring3 512 = (tr, Ok ch) ∧ stack_unused ch = 7.
Proof.
  destruct (stack_unused_is_first_non_fill Sample.ring3 512 Sample.main
              "main" Sample.main_stack
              ltac:(sample) ltac:(sample) ltac:(sample) ltac:(sample))
    as (tr & ch & Hinit & _ & _ & _ & _ & H7).
  exists tr, ch. split; [exact Hinit|].
  apply (H7 x00 []); [reflexivity|discriminate].
Defined.

Lemma no_stack_limit_no_scan_bare :
  ∃ tr ch,
    ChibiosThread_init Sample.bare3 512 = (tr, Ok ch) ∧
    reads tr = [] ∧ stack_size ch = 0 ∧ stack_unused ch = 0 ∧
    stack_start ch = 4104.
Proof.
  destruct (no_stack_limit_no_scan Sample.bare3 512 Sample.main "main"
              ltac:(sample) ltac:(left; sample))
    as (tr & ch & Hinit & Hreads & Hsize & Hunused).
  exists tr, ch. repeat split; try assumption.
  vm_compute in Hinit. now injection Hinit as _ <-.
Defined.

Lemma scan_failure_of_idle :
  ∃ tr rb r rl,
    invoke 4 Sample.ring3 = Some (tr, Ok ()) ∧
    rows tr = rb ++ r :: rl ∧
    col_Address r = 768 ∧ col_Free r = 0 ∧ length rl = 1%nat.
Proof.
  destruct (scan_failure_is_absorbed Sample.ring3 [512] 768 [1024]
              Sample.idle ""
              ltac:(sample) ltac:(sample) ltac:(sample) ltac:(sample)
              ltac:(sample) ltac:(sample) ltac:(sample) ltac:(sample))
    as (_ & tr & rb & r & rl & Hinv & Hrows & _ & Haddr & Hfree & Hrl).
  exists tr, rb, r, rl. split; [apply Hinv; simpl; lia|].
  repeat split; try assumption.
  symmetry. exact (Forall2_length _ _ _ Hrl).
Defined.

(** Against C7 as stated: a state ordinal of 15, the length of the table,
    does not make extraction fail; the thread is built with state 15. *)
Lemma extraction_accepts_state_15 :
  ∃ tr ch,
    ChibiosThread_init Sample.state_15 512 = (tr, Ok ch) ∧
    state ch = 15 ∧ Z.of_nat (length THREAD_STATE) = 15.
Proof. do 2 eexists. repeat split; vm_compute; reflexivity. Qed.

Lemma state_15_fails_at_state_str :
  ∃ tr ch,
    ChibiosThread_init Sample.state_15 512 = (tr, Ok ch) ∧
    state ch = 15 ∧ state_str ch = Raise IndexError.
Proof.
  destruct (state_checked_at_state_str Sample.state_15 512 Sample.main_15
              "main" ltac:(sample))
    as (tr & ch & Hinit & Hst & _ & Hbig).
  exists tr, ch. split; [exact Hinit|]. split; [exact Hst|].
  apply Hbig. vm_compute. discriminate.
Defined.

Lemma state_minus_1_reads_FINAL :
  ∃ tr ch,
    ChibiosThread_init Sample.state_minus_1 512 = (tr, Ok ch) ∧
    state ch = -1 ∧ state_str ch = Ok "FINAL".
Proof.
  destruct (negative_state_ordinal_wraps Sample.state_minus_1 512
              Sample.main_minus_1 "main" ltac:(sample))
    as (tr & ch & Hinit & Hst & Hneg & _).
  exists tr, ch. split; [exact Hinit|]. split; [exact Hst|].
  destruct Hneg as (s & Hs & Hstr); [vm_compute; split; discriminate|].
  vm_compute in Hs. injection Hs as <-. exact Hstr.
Defined.

(** Against C8 as stated: with the back link broken at the third of three
    threads the user sees the header and two rows, then the error. *)
Lemma truncated_table_is_printed :
  ∃ tr row1 row2,
    invoke 9 Sample.broken_at_3 =
      Some (tr, Raise (GdbError rlist_pointer_invalid)) ∧
    printed tr =
      [Print THREAD_INFO_HEADER_FORMAT; PrintRow row1; PrintRow row2] ∧
    col_Name row1 = "main" ∧ col_Name row2 = "<no name>" ∧
    size (threads Sample.broken_at_3) = 4%nat.
Proof. do 3 eexists. repeat split; vm_compute; reflexivity. Qed.

(** An anchor that cannot be read: the header is out before the error. *)
Lemma unreadable_anchor_prints_header :
  invoke 0 Sample.adrift =
  Some ([Print THREAD_INFO_HEADER_FORMAT], Raise MemoryError).
Proof. vm_compute. reflexivity. Qed.

Lemma output_of_broken_at_2 :
  ∃ tr,
    invoke 9 Sample.broken_at_2 =
      Some (tr, Raise (GdbError rlist_pointer_invalid)) ∧
    length (printed tr) = 2%nat.
Proof.
  assert (Hinv : ∃ tr, invoke 9 Sample.broken_at_2 =
                         Some (tr, Raise (GdbError rlist_pointer_invalid)))
    by (eexists; vm_compute; reflexivity).
  destruct Hinv as (tr & Hinv). exists tr. split; [exact Hinv|].
  destruct (output_is_header_and_rows_so_far _ _ _ _ Hinv)
    as [(_ & [=])|[(_ & _ & [=])|(t0 & e & _ & Hpr & _)]].
  rewrite Hpr. vm_compute in Hinv. injection Hinv as <-. reflexivity.
Defined.

Lemma negative_stack_size_of_main_below :
  ∃ tr ch,
    ChibiosThread_init Sample.below 512 = (tr, Ok ch) ∧
    stack_size ch = -96 ∧ reads tr = [(4096, -96)].
Proof.
  destruct (negative_stack_size_unguarded Sample.below 512 Sample.main_below
              "main" ltac:(sample) ltac:(sample) ltac:(sample) ltac:(sample))
    as (tr & ch & Hinit & Hsize & _ & Hreads).
  exists tr, ch. split; [exact Hinit|].
  rewrite Hreads, Hsize. split; reflexivity.
Defined.

(** ** The further properties at the sample targets *)

Lemma missing_p_prio_raises :
  (ChibiosThread_init Sample.no_prio 512).2 = Raise (gdb_error "p_prio").
Proof.
  apply (missing_member_raises Sample.no_prio 512 Sample.main "main"
           ["p_ctx"; "p_name"; "p_state"; "p_flags"] "p_prio" ["p_refs"]);
    sample.
Defined.

Lemma unreadable_raises_at_samples :
  ChibiosThread_init Sample.ring3 9999 = ([], Raise MemoryError) ∧
  (ChibiosThread_init Sample.nameless 512).2 = Raise MemoryError.
Proof.
  split.
  - destruct (unreadable_memory_raises Sample.ring3 9999 ltac:(sample))
      as [H _].
    destruct (H ltac:(sample)) as [Hmem _]. apply Hmem. left. sample.
  - destruct (unreadable_memory_raises Sample.nameless 512 ltac:(sample))
      as [_ H]. apply (H Sample.main_nameless); sample.
Defined.

Lemma idle_has_no_name :
  ∃ tr ch,
    ChibiosThread_init Sample.ring3 768 = (tr, Ok ch) ∧
    name ch = "<no name>".
Proof.
  destruct (name_is_normalised Sample.ring3 768 Sample.idle ""
              ltac:(sample))
    as (tr & ch & Hinit & Hempty & _).
  exists tr, ch. split; [exact Hinit|]. now apply Hempty.
Defined.

Lemma time_of_main_timed :
  ∃ tr ch,
    ChibiosThread_init Sample.timed 512 = (tr, Ok ch) ∧ time ch = 777.
Proof.
  destruct (time_defaults_to_zero Sample.timed 512 Sample.main_timed "main"
              ltac:(sample))
    as (tr & ch & Hinit & Htime & _).
  exists tr, ch. split; [exact Hinit|]. apply Htime. sample.
Defined.

Lemma stack_columns_of_main :
  ∃ tr ch,
    ChibiosThread_init Sample.ring3 512 = (tr, Ok ch) ∧
    stack_limit ch = 4096 ∧ stack_start ch = 4104 ∧ stack_size ch = 8 ∧
    0 ≤ stack_unused ch ≤ 8.
Proof.
  destruct (stack_columns_are_consistent Sample.ring3 512 Sample.main "main"
              ltac:(sample) ltac:(sample) ltac:(sample))
    as (tr & ch & Hinit & Hlimit & Hstart & Hsize & _ & Hbound).
  exists tr, ch. split; [exact Hinit|].
  rewrite Hlimit, Hstart in Hsize. rewrite Hlimit in Hbound.
  change (p_stklimit Sample.main) with 4096 in *.
  change (p_ctx_r13 Sample.main) with 4104 in *.
  split; [exact Hlimit|]. split; [exact Hstart|]. split; [exact Hsize|].
  rewrite Hsize in *.
  destruct (Hbound Sample.main_stack) as [H _];
    [reflexivity|reflexivity|exact H].
Defined.

Lemma thread_command_without_registry :
  ∃ tr row,
    ChibiosThreadCommand_invoke Sample.no_registry (Some 512) = (tr, Ok ()) ∧
    printed tr = [Print THREAD_INFO_HEADER_FORMAT; PrintRow row] ∧
    col_Address row = 512.
Proof.
  exact (thread_command_needs_no_registry Sample.no_registry 512 Sample.main
           "main" ltac:(sample) ltac:(sample)).
Defined.

Lemma thread_command_agrees_on_idle :
  ∃ trw tr row,
    invoke 4 Sample.ring3 = Some (trw, Ok ()) ∧
    row ∈ rows trw ∧ col_Address row = 768 ∧
    ChibiosThreadCommand_invoke Sample.ring3 (Some 768) = (tr, Ok ()) ∧
    printed tr = [Print THREAD_INFO_HEADER_FORMAT; PrintRow row].
Proof.
  destruct (thread_command_agrees_with_walk Sample.ring3 [512; 768; 1024] 768
              ltac:(sample) ltac:(sample) ltac:(sample) ltac:(sample))
    as (trw & tr & row & Hinv & Hin & Ha & Hcmd & Hpr).
  exists trw, tr, row. split; [apply Hinv; simpl; lia|].
  repeat split; assumption.
Defined.

Lemma threads_command_without_registry :
  invoke 0 Sample.no_registry =
  Some ([], Raise (GdbError registry_not_enabled)).
Proof.
  apply invoke_refuses_without_links. left. sample.
Defined.

Lemma broken_at_1_goes_unnoticed :
  ∃ tr,
    invoke 4 Sample.broken_at_1 = Some (tr, Ok ()) ∧
    col_Address <$> rows tr = [512; 768; 1024].
Proof.
  destruct (first_back_link_is_not_checked Sample.broken_at_1
              [512; 768; 1024] Sample.anchor
              ltac:(sample) ltac:(sample) ltac:(sample) ltac:(sample)
              ltac:(sample) ltac:(sample))
    as (tr & Hinv & Haddr).
  exists tr. split; [apply Hinv; simpl; lia|exact Haddr].
Defined.

Lemma dangling_newer_of_idle :
  ∃ tr,
    invoke 2 Sample.dangling = Some (tr, Raise MemoryError) ∧
    col_Address <$> rows tr = [512; 768].
Proof.
  destruct (dangling_newer_aborts Sample.dangling [512] 768 2048 Sample.anchor
              ltac:(sample) ltac:(sample) ltac:(sample) ltac:(sample)
              ltac:(sample) ltac:(sample) ltac:(sample) ltac:(sample))
    as (tr & Hinv & Haddr).
  exists tr. split; [apply Hinv; simpl; lia|exact Haddr].
Defined.

Lemma state_200_aborts_walk :
  ∃ tr,
    invoke 3 Sample.state_200 = Some (tr, Raise IndexError) ∧
    col_Address <$> rows tr = [512; 768].
Proof.
  destruct (bad_state_aborts_walk Sample.state_200 [512; 768] 1024
              Sample.worker_200 "worker" Sample.anchor
              ltac:(sample) ltac:(sample) ltac:(sample) ltac:(sample)
              ltac:(sample) ltac:(sample) ltac:(sample) ltac:(sample)
              ltac:(sample) ltac:(vm_compute; intros [_ H]; discriminate H))
    as (tr & Hinv & Haddr).
  exists tr. split; [apply Hinv; simpl; lia|exact Haddr].
Defined.

Lemma looped_never_returns : invoke 1000 Sample.looped = None.
Proof.
  assert (Hloop : anchor_free_loop Sample.looped [512; 768]).
  { intros c Hc.
    apply elem_of_cons in Hc as [->|Hc];
      [|apply elem_of_cons in Hc as [->|Hc]; [|now apply elem_of_nil in Hc]].
    - split; [sample|]. split; [sample|]. exists 768. split; sample.
    - split; [sample|]. split; [sample|]. exists 512. split; sample. }
  exact (walk_never_returns_from_anchor_free_loop Sample.looped [512; 768]
           Sample.anchor ltac:(sample) Hloop ltac:(sample) ltac:(sample)
           1000%nat).
Defined.

Lemma normal_end_of_ring3 :
  ∃ tr,
    invoke 4 Sample.ring3 = Some (tr, Ok ()) ∧
    adjacent Sample.ring3 ((col_Address <$> rows tr) ++ [256]).
Proof.
  assert (H : ∃ tr, invoke 4 Sample.ring3 = Some (tr, Ok ()))
    by (eexists; vm_compute; reflexivity).
  destruct H as [tr H]. exists tr. split; [exact H|].
  destruct (normal_end_vouches_for_links _ _ _ H) as (t0 & _ & _ & Hadj & _).
  exact Hadj.
Defined.
